(** * MFUPSI: field arithmetic, PRF, banded vectors, Gaussian elimination
    over Z_q, matrix aggregation and derived configuration parameters.

    Shallow embedding of [utils.h] ([Utils]), [matrix.h] ([Matrix]) and
    [config.h] ([Config]).  A [uint64_t] is a [Z] in [[0, 2^64)]; the 128-bit
    intermediates of [add_mod], [sub_mod], [mul_mod] and [fast_pow] never
    overflow for operands below [2^64], so they are written as plain [Z]
    arithmetic followed by the reduction [mod q] of the source.  A
    [std::vector] is a [list]; element [i] is [nth i _ 0]; [v[i] = x] is
    [set_nth]. *)

From Stdlib Require Import ZArith Znumtheory Lia List Bool Permutation.
From Stdlib Require Zmod.ZmodInv.
From Stdlib Require Import Reals Lra.
Import ListNotations.

#[local] Open Scope Z_scope.

(** ** Generic list helpers *)

(** [v[i] = x] on a [std::vector]; out-of-range writes (undefined in C++)
    never occur in the code modelled here. *)
Fixpoint set_nth {A : Type} (i : nat) (x : A) (l : list A) : list A :=
  match l, i with
  | [], _ => []
  | _ :: t, O => x :: t
  | h :: t, S i' => h :: set_nth i' x t
  end.

Definition sumZ (l : list Z) : Z := fold_right Z.add 0 l.

Module Utils.

(** [uint64_t] wrap-around. *)
Definition u64 (z : Z) : Z := z mod 2 ^ 64.

Definition PRIME : Z := 11400714819323198485.

(** [Utils::hash_partition] *)
Definition hash_partition (k1 element : Z) : Z :=
  let h := Z.lxor k1 element in
  let h := Z.lxor h (Z.shiftr h 33) in
  let h := u64 (h * PRIME) in
  Z.lxor h (Z.shiftr h 33).

(** [Utils::sparse_vector]: [v(dimension, 0)], then the band loop
    [v[pos + i] = h % 2] for [i < band_width].  [element + i] is a
    [uint64_t] sum, hence [u64]. *)
Definition sparse_vector (k2 element : Z) (dimension band_width : nat)
  : list Z :=
  let v := repeat 0 dimension in
  let h_pos := hash_partition k2 element in
  let pos := Z.to_nat (h_pos mod Z.of_nat (dimension - band_width + 1)) in
  fold_left
    (fun v i =>
       let h := hash_partition (Z.lxor k2 (u64 (element + Z.of_nat i)))
                  element in
       set_nth (pos + i) (h mod 2) v)
    (seq 0 band_width) v.

(** [Utils::prf_value] *)
Definition prf_value (key input : Z) : Z :=
  let h := Z.lxor key input in
  let h := Z.lxor h (Z.shiftr h 33) in
  let h := u64 (h * 11400714819323198485) in
  Z.lxor h (Z.shiftr h 33).

(** [Utils::add_mod], [Utils::sub_mod], [Utils::mul_mod].  For
    [Utils::sub_mod] the plain [Z] form is the 128-bit computation as long
    as [b <= a + q], which holds at every call modelled here ([b] is a
    [mul_mod] result or a reduced entry, so [b < q]); the literal 128-bit
    form is [sub_mod_u128] below. *)
Definition add_mod (a b q : Z) : Z := (a + b) mod q.
Definition sub_mod (a b q : Z) : Z := (a + (q - b)) mod q.
Definition mul_mod (a b q : Z) : Z := (a * b) mod q.

(** [__uint128_t] wrap-around. *)
Definition u128 (z : Z) : Z := z mod 2 ^ 128.

(** [Utils::sub_mod] literally: [(__uint128_t)q - (__uint128_t)b] and the
    sum with [a] both wrap modulo [2^128] before [% q]. *)
Definition sub_mod_u128 (a b q : Z) : Z := u128 (a + u128 (q - b)) mod q.

(** The [while (exp > 0)] loop of [Utils::fast_pow], one iteration per
    bit of [exp], least significant first: [exp & 1] selects the
    multiplication into [result], then [b] is squared and [exp >>= 1]. *)
Fixpoint fast_pow_loop (result b : Z) (exp : positive) (md : Z) : Z :=
  match exp with
  | xH => (result * b) mod md
  | xO e => fast_pow_loop result ((b * b) mod md) e md
  | xI e => fast_pow_loop ((result * b) mod md) ((b * b) mod md) e md
  end.

(** [Utils::fast_pow] *)
Definition fast_pow (base exp q : Z) : Z :=
  if q =? 1 then 0
  else match exp with
       | Zpos p => fast_pow_loop 1 (base mod q) p q
       | _ => 1
       end.

(** [Utils::mod_inverse]: [q - 2] is a [uint64_t] difference. *)
Definition mod_inverse (a q : Z) : Z :=
  if a =? 0 then 0 else fast_pow a (u64 (q - 2)) q.

End Utils.

Module Matrix.
Import Utils.

Definition VectorType := list Z.
Definition MatrixType := list VectorType.

(** A row of the augmented matrix [[M | y]].  The [nat] is ghost state,
    absent from the C++: the index of the equation of [M] the row was
    built from.  It travels with the row through [std::swap] and is
    never read by the algorithm; it only names "the rows that received a
    pivot" in the specification. *)
Definition trow : Type := (nat * VectorType)%type.
Definition dflt : trow := (0%nat, []).

(** Step 1: [augmented[i][j] = M[i][j]] for [j < d1], [augmented[i][d1] = y[i]]. *)
Definition augment (M : MatrixType) (y : VectorType) (m d1 : nat)
  : list trow :=
  map (fun i => (i, map (fun j => nth j (nth i M []) 0) (seq 0 d1)
                    ++ [nth i y 0]))
      (seq 0 m).

(** 2.1: first row in [[row, m)] whose entry in column [col] is nonzero
    ([fuel = m - row]). *)
Fixpoint find_pivot (A : list trow) (col row fuel : nat) : option nat :=
  match fuel with
  | O => None
  | S f =>
      if negb (nth col (snd (nth row A dflt)) 0 =? 0) then Some row
      else find_pivot A col (S row) f
  end.

(** 2.2: [std::swap(augmented[i], augmented[j])]. *)
Definition swap_rows (A : list trow) (i j : nat) : list trow :=
  set_nth i (nth j A dflt) (set_nth j (nth i A dflt) A).

(** 2.3: [for (j = col; j <= d1; j++) r[j] = mul_mod(r[j], inv, q)]. *)
Definition normalize_row (r : VectorType) (col : nat) (inv q : Z)
  : VectorType :=
  map (fun j => if (j <? col)%nat then nth j r 0
                else mul_mod (nth j r 0) inv q)
      (seq 0 (length r)).

(** 2.4, one row: [for (j = col; j <= d1; j++)
    r[j] = sub_mod(r[j], mul_mod(factor, piv[j], q), q)]. *)
Definition eliminate_row (r piv : VectorType) (col : nat) (factor q : Z)
  : VectorType :=
  map (fun j => if (j <? col)%nat then nth j r 0
                else sub_mod (nth j r 0) (mul_mod factor (nth j piv 0) q) q)
      (seq 0 (length r)).

(** 2.4: the loop over the rows [i > pivot_row]; a row whose factor is
    [0] is skipped ([continue]). *)
Fixpoint eliminate_from (rows : list trow) (piv : VectorType) (col : nat)
  (q : Z) : list trow :=
  match rows with
  | [] => []
  | (t, r) :: rest =>
      let factor := nth col r 0 in
      (if factor =? 0 then (t, r) else (t, eliminate_row r piv col factor q))
        :: eliminate_from rest piv col q
  end.

(** One iteration of the [col] loop of the forward elimination. *)
Definition forward_step (A : list trow) (m col pivot_row : nat) (q : Z)
  : list trow * nat :=
  match find_pivot A col pivot_row (m - pivot_row) with
  | None => (A, pivot_row)
  | Some best_row =>
      let A1 := swap_rows A pivot_row best_row in
      let t := fst (nth pivot_row A1 dflt) in
      let r := snd (nth pivot_row A1 dflt) in
      let pivot := nth col r 0 in
      let pivot_inv := mod_inverse pivot q in
      let piv := normalize_row r col pivot_inv q in
      let A2 := set_nth pivot_row (t, piv) A1 in
      let A3 := firstn (S pivot_row) A2
                ++ eliminate_from (skipn (S pivot_row) A2) piv col q in
      (A3, S pivot_row)
  end.

(** [for (col = 0; col < d1 && pivot_row < m; col++)], with
    [fuel = d1 - col]. *)
Fixpoint forward (A : list trow) (m col pivot_row fuel : nat) (q : Z)
  : list trow * nat :=
  match fuel with
  | O => (A, pivot_row)
  | S f =>
      if (pivot_row <? m)%nat then
        let '(A', pr') := forward_step A m col pivot_row q in
        forward A' m (S col) pr' f q
      else (A, pivot_row)
  end.

(** 3.1: first column [j < d1] with a nonzero entry ([fuel = d1 - j]). *)
Fixpoint find_leading (r : VectorType) (j fuel : nat) : option nat :=
  match fuel with
  | O => None
  | S f => if negb (nth j r 0 =? 0) then Some j else find_leading r (S j) f
  end.

(** 3.2: [sum = a[i][d1]; for (j = lc+1; j < d1; j++)
    sum = sub_mod(sum, mul_mod(a[i][j], result[j], q), q)]. *)
Definition residual (r result : VectorType) (lc d1 : nat) (q : Z) : Z :=
  fold_left (fun sum j => sub_mod sum (mul_mod (nth j r 0) (nth j result 0) q) q)
            (seq (S lc) (d1 - S lc)) (nth d1 r 0).

(** One iteration of the back substitution, on row [i]. *)
Definition back_step (A : MatrixType) (d1 : nat) (q : Z)
  (result : VectorType) (i : nat) : VectorType :=
  let r := nth i A [] in
  match find_leading r 0 d1 with
  | None => result
  | Some lc =>
      let sum := residual r result lc d1 q in
      let pivot := nth lc r 0 in
      if pivot =? 0 then result
      else set_nth lc (mul_mod sum (mod_inverse pivot q) q) result
  end.

(** [for (i = n - 1; i >= 0; i--)]. *)
Fixpoint back_subst (A : MatrixType) (d1 : nat) (q : Z) (n : nat)
  (result : VectorType) : VectorType :=
  match n with
  | O => result
  | S k => back_subst A d1 q k (back_step A d1 q result k)
  end.

(** [Matrix::gaussian_elimination].  The back substitution starts at
    [i = min(pivot_row - 1, d1 - 1)] (as [int]), i.e. it visits the
    [min(pivot_row, d1)] rows below that bound. *)
Definition gaussian_elimination (M : MatrixType) (y : VectorType) (q : Z)
  : VectorType :=
  match M with
  | [] => []
  | r0 :: _ =>
      let m := length M in
      let d1 := length r0 in
      let '(A, pivot_row) := forward (augment M y m d1) m 0 0 d1 q in
      back_subst (map snd A) d1 q (Nat.min pivot_row d1) (repeat 0 d1)
  end.

(** Specification-only: the indices of the equations of [M] whose rows
    were moved to a pivot position by the forward elimination. *)
Definition pivoted_rows (M : MatrixType) (y : VectorType) (q : Z)
  : list nat :=
  match M with
  | [] => []
  | r0 :: _ =>
      let m := length M in
      let d1 := length r0 in
      let '(A, pivot_row) := forward (augment M y m d1) m 0 0 d1 q in
      map fst (firstn pivot_row A)
  end.

(** [sum_j row[j] * e[j]] over the columns of [e]. *)
Definition row_dot (row e : VectorType) : Z :=
  sumZ (map (fun j => nth j row 0 * nth j e 0) (seq 0 (length e))).

(** [Matrix::matrix_add]: [rows = A.size()], [cols = A[0].size()]. *)
Definition matrix_add (A B : MatrixType) (q : Z) : MatrixType :=
  let rows := length A in
  let cols := length (nth 0 A []) in
  map (fun i => map (fun j => add_mod (nth j (nth i A []) 0)
                                       (nth j (nth i B []) 0) q)
                    (seq 0 cols))
      (seq 0 rows).

(** Modelled from the spec: the body of [server_aggregate] (declared in
    [protocol.h]) is not part of the sources.  Section 4.4 describes
    [aggregate(masked_matrices)] as the componentwise sum mod [q] of all
    uploads: here the first upload, then [agg = matrix_add(agg, X, q)]
    for each further one. *)
Definition aggregate (Xs : list MatrixType) (q : Z) : MatrixType :=
  match Xs with
  | [] => []
  | X :: rest => fold_left (fun acc Y => matrix_add acc Y q) rest X
  end.

(** [Matrix::matrix_sub]: [rows = A.size()], [cols = A[0].size()]. *)
Definition matrix_sub (A B : MatrixType) (q : Z) : MatrixType :=
  let rows := length A in
  let cols := length (nth 0 A []) in
  map (fun i => map (fun j => sub_mod (nth j (nth i A []) 0)
                                       (nth j (nth i B []) 0) q)
                    (seq 0 cols))
      (seq 0 rows).

(** The inner loop of [Matrix::matrix_multiply]:
    [sum = add_mod(sum, mul_mod(A[i][l], B[l][j], q), q)] for [l < m],
    from [sum = 0]. *)
Definition mm_entry (A B : MatrixType) (m i j : nat) (q : Z) : Z :=
  fold_left (fun sum l => add_mod sum (mul_mod (nth l (nth i A []) 0)
                                               (nth j (nth l B []) 0) q) q)
            (seq 0 m) 0.

(** [Matrix::matrix_multiply]: [n = A.size()], [m = A[0].size()],
    [k = B[0].size()], [C[i][j] = sum]. *)
Definition matrix_multiply (A B : MatrixType) (q : Z) : MatrixType :=
  let n := length A in
  let m := length (nth 0 A []) in
  let k := length (nth 0 B []) in
  map (fun i => map (fun j => mm_entry A B m i j q) (seq 0 k)) (seq 0 n).

(** [Matrix::vector_matrix_multiply]: [m = M.size()], [n = M[0].size()];
    a vector of the wrong size gives [VectorType()]; otherwise
    [result[j] = sum] of [mul_mod(v[i], M[i][j], q)] for [i < m]. *)
Definition vector_matrix_multiply (v : VectorType) (M : MatrixType) (q : Z)
  : VectorType :=
  let m := length M in
  let n := length (nth 0 M []) in
  if negb (Nat.eqb (length v) m) then []
  else map (fun j => fold_left (fun sum i => add_mod sum
                                   (mul_mod (nth i v 0) (nth j (nth i M []) 0) q) q)
                               (seq 0 m) 0)
           (seq 0 n).

(** [Matrix::zero_matrix]: [MatrixType(rows, VectorType(cols, 0))]. *)
Definition zero_matrix (rows cols : nat) : MatrixType :=
  repeat (repeat 0 cols) rows.

(** [Matrix::transpose]: [MT(cols, VectorType(rows))] with
    [MT[j][i] = M[i][j]] for every [i < rows], [j < cols]; every entry of
    [MT] is written once. *)
Definition transpose (M : MatrixType) : MatrixType :=
  let rows := length M in
  let cols := length (nth 0 M []) in
  map (fun j => map (fun i => nth j (nth i M []) 0) (seq 0 rows)) (seq 0 cols).

End Matrix.

Module Config.

(** A finite [double]: the dyadic rational [mant * 2^expo].  The values
    of the configuration are finite and far below [2^1024], so neither
    infinities nor overflow are represented. *)
Record double := mkD { mant : Z; expo : Z }.

(** The real number a [double] stands for. *)
Definition dval (x : double) : R := (IZR (mant x) * powerRZ 2 (expo x))%R.

(** [floor(log2(p / q))] for [p, q > 0]. *)
Definition flog2 (p q : Z) : Z :=
  let l := Z.log2 p - Z.log2 q in
  if (if 0 <=? l then p <? q * 2 ^ l else p * 2 ^ (- l) <? q) then l - 1 else l.

(** [N / D] rounded to the nearest integer, ties to even ([D > 0]). *)
Definition rne (N D : Z) : Z :=
  let n := N / D in
  let r := N mod D in
  match Z.compare (2 * r) D with
  | Lt => n
  | Gt => n + 1
  | Eq => if Z.even n then n else n + 1
  end.

(** IEEE 754 binary64 rounding to nearest, ties to even, of the positive
    rational [p / q * 2^e]: 53 significant bits, exponent of the last bit
    at least [-1074] (subnormals). *)
Definition rnd_pos (p q e : Z) : double :=
  let t := Z.max (flog2 p q + e - 52) (-1074) in
  let s := e - t in
  let n := if 0 <=? s then rne (p * 2 ^ s) q else rne p (q * 2 ^ (- s)) in
  mkD n t.

(** Rounding of the rational [p / q * 2^e], [q > 0]; rounding is
    symmetric in the sign. *)
Definition rnd (p q e : Z) : double :=
  if p =? 0 then mkD 0 0
  else if 0 <? p then rnd_pos p q e
  else let d := rnd_pos (- p) q e in mkD (- mant d) (expo d).

(** [x + y], [x * y] and [x / y] on [double]s: the exact result rounded.
    Division by zero (an infinity or NaN in C++) is not modelled. *)
Definition dadd (x y : double) : double :=
  let e := Z.min (expo x) (expo y) in
  rnd (mant x * 2 ^ (expo x - e) + mant y * 2 ^ (expo y - e)) 1 e.
Definition dmul (x y : double) : double :=
  rnd (mant x * mant y) 1 (expo x + expo y).
Definition ddiv (x y : double) : double :=
  if 0 <? mant y then rnd (mant x) (mant y) (expo x - expo y)
  else rnd (- mant x) (- mant y) (expo x - expo y).

(** The implicit conversion of a [size_t] to [double]. *)
Definition of_size (n : nat) : double := rnd (Z.of_nat n) 1 0.

(** [std::ceil], exact on a [double]. *)
Definition dceil (x : double) : Z :=
  if 0 <=? expo x then mant x * 2 ^ expo x
  else - ((- mant x) / 2 ^ (- expo x)).

(** The ceiling of a real number, to state the exact value the
    specification speaks of ([up x] is the least integer strictly above
    [x]). *)
Definition Rceil (x : R) : Z :=
  if Req_EM_T (IZR (up x - 1)) x then (up x - 1)%Z else up x.

Record ExperimentConfig := mkConfig {
  num_clients : nat;
  dataset_size : nat;
  num_updates : nat;
  num_queries : nat;
  partition_size : nat;
  expansion_factor : double;
  pir_dimension : nat;
  lwe_dimension : nat;
  modulus : Z;
  band_width : nat;
  num_partitions : nat;
  pir_fold_size : double
}.

(** [ExperimentConfig::compute_derived_params]:
    [num_partitions = static_cast<size_t>(std::ceil((1.0 + expansion_factor)
       * dataset_size * num_clients / partition_size))] evaluated left to
    right in [double] (each [size_t] converted, each operation rounded),
    and [pir_fold_size = std::pow(static_cast<double>(num_partitions),
    1.0 / pir_dimension)].  [std::pow] is the C library's, not part of
    the repository: it is the parameter [pow].  [Z.to_nat] is the
    conversion to [size_t] on the nonnegative values it is defined on. *)
Definition compute_derived_params (pow : double -> double -> double)
  (c : ExperimentConfig) : ExperimentConfig :=
  let x := ddiv (dmul (dmul (dadd (mkD 1 0) (expansion_factor c))
                             (of_size (dataset_size c)))
                       (of_size (num_clients c)))
                (of_size (partition_size c)) in
  let b := Z.to_nat (dceil x) in
  let fold := pow (of_size b) (ddiv (mkD 1 0) (of_size (pir_dimension c))) in
  mkConfig (num_clients c) (dataset_size c) (num_updates c) (num_queries c)
           (partition_size c) (expansion_factor c) (pir_dimension c)
           (lwe_dimension c) (modulus c) (band_width c) b fold.

End Config.

(** * Proofs *)

(** ** List lemmas *)

Lemma length_set_nth {A : Type} (i : nat) (x : A) (l : list A) :
  length (set_nth i x l) = length l.
Proof.
  revert i; induction l as [|h t IH]; intros [|i]; simpl; auto.
Qed.

Lemma nth_set_nth {A : Type} (i j : nat) (x d : A) (l : list A) :
  (i < length l)%nat ->
  nth j (set_nth i x l) d = if Nat.eqb j i then x else nth j l d.
Proof.
  revert i j; induction l as [|h t IH]; intros [|i] [|j] Hi; simpl in *;
    try lia; auto.
  rewrite IH by lia. reflexivity.
Qed.

Lemma nth_map_seq {A : Type} (f : nat -> A) (n i : nat) (d : A) :
  (i < n)%nat -> nth i (map f (seq 0 n)) d = f i.
Proof.
  intros Hi. rewrite nth_indep with (d' := f 0%nat)
    by (rewrite length_map, length_seq; lia).
  rewrite map_nth, seq_nth by lia. reflexivity.
Qed.

Lemma sumZ_app (l1 l2 : list Z) : sumZ (l1 ++ l2) = sumZ l1 + sumZ l2.
Proof.
  induction l1 as [|a l1 IH]; simpl; [reflexivity|]. rewrite IH. ring.
Qed.

Lemma in_seq_lt (s n j : nat) : In j (seq s n) -> (s <= j < s + n)%nat.
Proof. rewrite in_seq. lia. Qed.

(** ** Field arithmetic *)

Module UtilsFacts.
Import Utils.

Lemma fast_pow_loop_spec (p : positive) (r b md : Z) :
  0 < md -> fast_pow_loop r b p md = (r * b ^ Zpos p) mod md.
Proof.
  intros Hmd. revert r b.
  induction p as [p IH|p IH|]; intros r b; simpl fast_pow_loop.
  - rewrite IH, Z.mul_mod_idemp_l by lia.
    rewrite <- (Z.mul_mod_idemp_r (r * b)), Z.mod_pow_l,
      Z.mul_mod_idemp_r by lia.
    f_equal. rewrite Pos2Z.inj_xI, Z.pow_add_r, Z.pow_mul_r, Z.pow_1_r
      by lia.
    rewrite <- Z.pow_2_r. ring.
  - rewrite IH.
    rewrite <- (Z.mul_mod_idemp_r r), Z.mod_pow_l,
      Z.mul_mod_idemp_r by lia.
    f_equal. rewrite Pos2Z.inj_xO, Z.pow_mul_r by lia.
    rewrite <- Z.pow_2_r. reflexivity.
  - rewrite Z.pow_1_r. reflexivity.
Qed.

Lemma fast_pow_spec (base e q : Z) :
  2 <= q -> 0 <= e -> fast_pow base e q = base ^ e mod q.
Proof.
  intros Hq He. unfold fast_pow.
  destruct (Z.eqb_spec q 1) as [|_]; [lia|].
  destruct e as [|p|p]; [| |lia].
  - rewrite Z.pow_0_r, Z.mod_small by lia. reflexivity.
  - rewrite fast_pow_loop_spec, Z.mul_1_l, Z.mod_pow_l by lia.
    reflexivity.
Qed.

(** [mod_inverse] is the Fermat inverse modulo a prime [q < 2^64]. *)
Lemma mod_inverse_mul (a q : Z) :
  Z.prime q -> q < 2 ^ 64 -> 1 <= a < q ->
  (mod_inverse a q * a) mod q = 1.
Proof.
  intros Hp Hq64 Ha. pose proof (Z.prime_ge_2 _ Hp) as Hq2.
  unfold mod_inverse. destruct (Z.eqb_spec a 0) as [|_]; [lia|].
  unfold u64. rewrite (Z.mod_small (q - 2)) by lia.
  rewrite fast_pow_spec by lia.
  rewrite Z.mul_mod_idemp_l by lia.
  replace (a ^ (q - 2) * a) with (a ^ (q - 1)).
  - apply ZmodInv.Z.fermat_nz; [assumption|].
    rewrite Z.mod_small; lia.
  - replace (q - 1) with (Z.succ (q - 2)) by lia.
    rewrite Z.pow_succ_r by lia. ring.
Qed.

End UtilsFacts.

(** ** The banded vector *)

Module SparseFacts.
Import Utils.

Lemma band_fold_nth (f : nat -> Z) (pos s n : nat) (v : list Z) (j : nat) :
  (pos + s + n <= length v)%nat ->
  nth j (fold_left (fun v i => set_nth (pos + i) (f i) v) (seq s n) v) 0
  = if ((pos + s <=? j) && (j <? pos + s + n))%nat then f (j - pos)%nat
    else nth j v 0.
Proof.
  revert s v. induction n as [|n IH]; intros s v Hlen; simpl.
  - destruct (pos + s <=? j)%nat eqn:E1, (j <? pos + s + 0)%nat eqn:E2;
      simpl; auto; apply Nat.leb_le in E1; apply Nat.ltb_lt in E2; lia.
  - rewrite IH by (rewrite length_set_nth; lia).
    rewrite nth_set_nth by lia.
    destruct (Nat.eqb_spec j (pos + s)) as [->|Hne].
    + replace (pos + s - pos)%nat with s by lia.
      destruct (pos + S s <=? pos + s)%nat eqn:E1;
        [apply Nat.leb_le in E1; lia|].
      destruct (pos + s <=? pos + s)%nat eqn:E2;
        [|apply Nat.leb_nle in E2; lia].
      destruct (pos + s <? pos + s + S n)%nat eqn:E3;
        [|apply Nat.ltb_nlt in E3; lia].
      reflexivity.
    + destruct (pos + S s <=? j)%nat eqn:E1, (j <? pos + S s + n)%nat eqn:E2,
        (pos + s <=? j)%nat eqn:E3, (j <? pos + s + S n)%nat eqn:E4;
        simpl; auto;
        repeat match goal with
               | H : (_ <=? _)%nat = true |- _ => apply Nat.leb_le in H
               | H : (_ <=? _)%nat = false |- _ => apply Nat.leb_nle in H
               | H : (_ <? _)%nat = true |- _ => apply Nat.ltb_lt in H
               | H : (_ <? _)%nat = false |- _ => apply Nat.ltb_nlt in H
               end; lia.
Qed.

Lemma fold_set_nth_length (g : nat -> nat) (f : nat -> Z) (l : list nat)
  (v : list Z) :
  length (fold_left (fun v i => set_nth (g i) (f i) v) l v) = length v.
Proof.
  revert v; induction l as [|i l IH]; intros v; simpl; auto.
  rewrite IH, length_set_nth. reflexivity.
Qed.

Lemma nth_repeat_Z (n j : nat) : nth j (repeat 0 n) 0 = 0.
Proof.
  revert j; induction n as [|n IH]; intros [|j]; simpl; auto.
Qed.

Lemma sparse_pos_bound (k2 x : Z) (d1 w : nat) :
  (w <= d1)%nat ->
  (Z.to_nat (hash_partition k2 x mod Z.of_nat (d1 - w + 1)) + w <= d1)%nat.
Proof.
  intros Hw.
  pose proof (Z.mod_pos_bound (hash_partition k2 x) (Z.of_nat (d1 - w + 1)))
    as Hb.
  lia.
Qed.

End SparseFacts.

(** ** Claims on the field arithmetic and the PRF *)

Section UtilsClaims.
Import Utils SparseFacts UtilsFacts.

(** C2: for every prime [q] (a [uint64_t], so [q < 2^64]) and every
    [a] in [[1, q)], [mul_mod(mod_inverse(a, q), a, q) = 1]. *)
Theorem mod_inverse_correct (a q : Z) :
  Z.prime q -> q < 2 ^ 64 -> 1 <= a < q ->
  mul_mod (mod_inverse a q) a q = 1.
Proof.
  intros Hp Hq Ha. unfold mul_mod. apply mod_inverse_mul; assumption.
Qed.

Lemma mod_inverse_correct_witness :
  Z.prime 3 /\ 3 < 2 ^ 64 /\ 1 <= 2 < 3 /\ mul_mod (mod_inverse 2 3) 2 3 = 1.
Proof.
  refine (conj Z.prime_3 (conj _ (conj _ _))); [lia|lia|].
  apply (mod_inverse_correct 2 3); [exact Z.prime_3|lia|lia].
Defined.

(** C7: [mod_inverse(0, q)] returns the sentinel [0], for every [q]. *)
Theorem mod_inverse_zero (q : Z) : mod_inverse 0 q = 0.
Proof. reflexivity. Qed.

(** C9: [prf_value] and [hash_partition] compute the same function. *)
Theorem prf_value_eq_hash_partition (k x : Z) :
  prf_value k x = hash_partition k x.
Proof. reflexivity. Qed.

(** C5: for [1 <= w <= d1], [sparse_vector(k2, x, d1, w)] has length
    [d1], is zero outside the band [[pos, pos + w)] with
    [pos = hash_partition(k2, x) mod (d1 - w + 1)], holds
    [hash_partition(k2 xor (x + i), x) mod 2] at [pos + i] (with the
    [uint64_t] sum [x + i]), and all its entries are [0] or [1]. *)
Theorem sparse_vector_band (k2 x : Z) (d1 w : nat) :
  (1 <= w <= d1)%nat ->
  let v := sparse_vector k2 x d1 w in
  let pos := Z.to_nat (hash_partition k2 x mod Z.of_nat (d1 - w + 1)) in
  length v = d1 /\ (pos + w <= d1)%nat /\
  (forall j, (j < d1)%nat ->
     nth j v 0 =
     if ((pos <=? j) && (j <? pos + w))%nat
     then hash_partition (Z.lxor k2 (u64 (x + Z.of_nat (j - pos)))) x mod 2
     else 0) /\
  Forall (fun a => a = 0 \/ a = 1) v.
Proof.
  intros Hw v pos.
  assert (Hpos : (pos + w <= d1)%nat) by (apply sparse_pos_bound; lia).
  set (f := fun i : nat =>
              hash_partition (Z.lxor k2 (u64 (x + Z.of_nat i))) x mod 2).
  assert (Hv : v = fold_left (fun v i => set_nth (pos + i) (f i) v)
                             (seq 0 w) (repeat 0 d1)) by reflexivity.
  assert (Hlen : length v = d1).
  { rewrite Hv, fold_set_nth_length, repeat_length. reflexivity. }
  assert (Hnth : forall j, (j < d1)%nat ->
     nth j v 0 = if ((pos <=? j) && (j <? pos + w))%nat
                 then f (j - pos)%nat else 0).
  { intros j Hj. rewrite Hv, band_fold_nth by (rewrite repeat_length; lia).
    rewrite nth_repeat_Z, Nat.add_0_r. reflexivity. }
  refine (conj Hlen (conj Hpos (conj Hnth _))).
  apply Forall_forall. intros a Ha.
  destruct (In_nth v a 0 Ha) as [j [Hj <-]].
  rewrite Hnth by lia.
  destruct ((pos <=? j) && (j <? pos + w))%nat; [|left; reflexivity].
  unfold f. pose proof (Z.mod_pos_bound
    (hash_partition (Z.lxor k2 (u64 (x + Z.of_nat (j - pos)))) x) 2) as B.
  lia.
Qed.

Lemma sparse_vector_band_witness :
  (1 <= 5 <= 12)%nat /\
  let v := sparse_vector 123456789 987654321 12 5 in
  let pos := Z.to_nat (hash_partition 123456789 987654321
                         mod Z.of_nat (12 - 5 + 1)) in
  length v = 12%nat /\ (pos + 5 <= 12)%nat /\
  (forall j, (j < 12)%nat ->
     nth j v 0 =
     if ((pos <=? j) && (j <? pos + 5))%nat
     then hash_partition (Z.lxor 123456789
                            (u64 (987654321 + Z.of_nat (j - pos))))
                         987654321 mod 2
     else 0) /\
  Forall (fun a => a = 0 \/ a = 1) v.
Proof.
  split; [lia|]. apply (sparse_vector_band 123456789 987654321 12 5). lia.
Defined.

End UtilsClaims.

(** ** Aggregation *)

Module AggregateFacts.
Import Utils Matrix.

(** An [r x c] matrix with entries in [[0, q)]. *)
Definition shaped (r c : nat) (q : Z) (X : MatrixType) : Prop :=
  length X = r /\
  Forall (fun row => length row = c /\ Forall (fun a => 0 <= a < q) row) X.

Lemma shaped_nth (r c : nat) (q : Z) (X : MatrixType) (i : nat) :
  shaped r c q X -> (i < r)%nat ->
  length (nth i X []) = c /\
  (forall j, (j < c)%nat -> 0 <= nth j (nth i X []) 0 < q).
Proof.
  intros [Hl Hf] Hi. rewrite Forall_forall in Hf.
  destruct (Hf (nth i X [])) as [Hc Ha]; [apply nth_In; lia|].
  split; [assumption|]. intros j Hj. rewrite Forall_forall in Ha.
  apply Ha, nth_In. lia.
Qed.

Lemma matrix_add_unfold (r c : nat) (q : Z) (A B : MatrixType) :
  (1 <= r)%nat -> shaped r c q A ->
  matrix_add A B q =
  map (fun i => map (fun j => add_mod (nth j (nth i A []) 0)
                                       (nth j (nth i B []) 0) q)
                    (seq 0 c))
      (seq 0 r).
Proof.
  intros Hr HA. unfold matrix_add.
  destruct (shaped_nth r c q A 0 HA) as [Hc _]; [lia|].
  destruct HA as [Hl _]. rewrite Hl, Hc. reflexivity.
Qed.

Lemma nth_matrix_add (r c : nat) (q : Z) (A B : MatrixType) (i j : nat) :
  (1 <= r)%nat -> shaped r c q A -> (i < r)%nat -> (j < c)%nat ->
  nth j (nth i (matrix_add A B q) []) 0
  = add_mod (nth j (nth i A []) 0) (nth j (nth i B []) 0) q.
Proof.
  intros Hr HA Hi Hj. rewrite (matrix_add_unfold r c) by assumption.
  rewrite !nth_map_seq by assumption. reflexivity.
Qed.

Lemma matrix_add_shaped (r c : nat) (q : Z) (A B : MatrixType) :
  0 < q -> (1 <= r)%nat -> shaped r c q A -> shaped r c q (matrix_add A B q).
Proof.
  intros Hq Hr HA. rewrite (matrix_add_unfold r c) by assumption. split.
  - rewrite length_map, length_seq. reflexivity.
  - apply Forall_forall. intros row Hrow. apply in_map_iff in Hrow.
    destruct Hrow as [i [<- _]]. split.
    + rewrite length_map, length_seq. reflexivity.
    + apply Forall_forall. intros a Ha. apply in_map_iff in Ha.
      destruct Ha as [j [<- _]]. unfold add_mod. apply Z.mod_pos_bound, Hq.
Qed.

Lemma matrix_add_comm (r c : nat) (q : Z) (A B : MatrixType) :
  (1 <= r)%nat -> shaped r c q A -> shaped r c q B ->
  matrix_add A B q = matrix_add B A q.
Proof.
  intros Hr HA HB.
  rewrite (matrix_add_unfold r c q A), (matrix_add_unfold r c q B)
    by assumption.
  apply map_ext. intros i. apply map_ext. intros j.
  unfold add_mod. rewrite Z.add_comm. reflexivity.
Qed.

Lemma matrix_add_assoc (r c : nat) (q : Z) (A B C : MatrixType) :
  0 < q -> (1 <= r)%nat -> shaped r c q A -> shaped r c q B ->
  matrix_add (matrix_add A B q) C q = matrix_add A (matrix_add B C q) q.
Proof.
  intros Hq Hr HA HB.
  rewrite (matrix_add_unfold r c q (matrix_add A B q))
    by (try apply matrix_add_shaped; assumption).
  rewrite (matrix_add_unfold r c q A (matrix_add B C q)) by assumption.
  apply map_ext_in. intros i Hi. apply in_seq_lt in Hi.
  apply map_ext_in. intros j Hj. apply in_seq_lt in Hj.
  rewrite (nth_matrix_add r c q A B), (nth_matrix_add r c q B C)
    by (assumption || lia).
  unfold add_mod. rewrite Z.add_mod_idemp_l, Z.add_mod_idemp_r by lia.
  f_equal. ring.
Qed.

Lemma fold_add_perm (r c : nat) (q : Z) (l l' : list MatrixType) :
  0 < q -> (1 <= r)%nat -> Permutation l l' -> Forall (shaped r c q) l ->
  forall acc, shaped r c q acc ->
  fold_left (fun acc Y => matrix_add acc Y q) l acc
  = fold_left (fun acc Y => matrix_add acc Y q) l' acc.
Proof.
  intros Hq Hr HP. induction HP as [|x l l' HP IH|x y l|l l' l'' HP1 IH1 HP2 IH2];
    intros Hall acc Hacc; simpl.
  - reflexivity.
  - inversion Hall; subst. apply IH; [assumption|].
    apply matrix_add_shaped; assumption.
  - inversion Hall as [|? ? Hy Hall']; subst.
    inversion Hall' as [|? ? Hx Hall'']; subst.
    rewrite !matrix_add_assoc with (r := r) (c := c) by assumption.
    rewrite (matrix_add_comm r c q y x) by assumption. reflexivity.
  - rewrite IH1 by assumption. apply IH2; [|assumption].
    apply Forall_forall. intros X HX. rewrite Forall_forall in Hall.
    apply Hall. apply (Permutation_in X (Permutation_sym HP1) HX).
Qed.

End AggregateFacts.

Section AggregateClaims.
Import Utils Matrix AggregateFacts.

(** C8: aggregation is order-independent.  For [q >= 1] and any list of
    [r x c] matrices ([r >= 1]; [matrix_add] reads [A[0]]) with entries
    in [[0, q)], folding them with [matrix_add] gives the same matrix for
    every permutation of the list. *)
Theorem aggregate_order_independent (Xs Xs' : list MatrixType) (r c : nat)
  (q : Z) :
  1 <= q -> (1 <= r)%nat ->
  Forall (fun X => length X = r /\
            Forall (fun row => length row = c /\
                      Forall (fun a => 0 <= a < q) row) X) Xs ->
  Permutation Xs Xs' ->
  aggregate Xs q = aggregate Xs' q.
Proof.
  intros Hq Hr Hall HP.
  assert (Hsh : Forall (shaped r c q) Xs) by exact Hall.
  clear Hall.
  induction HP as [|x l l' HP IH|x y l|l l' l'' HP1 IH1 HP2 IH2]; simpl.
  - reflexivity.
  - inversion Hsh; subst. apply (fold_add_perm r c); auto; lia.
  - inversion Hsh as [|? ? Hy Hsh']; subst.
    inversion Hsh' as [|? ? Hx Hsh'']; subst.
    rewrite (matrix_add_comm r c q y x) by assumption. reflexivity.
  - rewrite IH1 by assumption. apply IH2.
    apply Forall_forall. intros X HX. rewrite Forall_forall in Hsh.
    apply Hsh. apply (Permutation_in X (Permutation_sym HP1) HX).
Qed.

Lemma aggregate_order_independent_witness :
  let X1 := [[1; 2]; [3; 4]] in
  let X2 := [[4; 0]; [1; 1]] in
  let X3 := [[2; 2]; [0; 3]] in
  1 <= 5 /\ (1 <= 2)%nat /\
  Forall (fun X => length X = 2%nat /\
            Forall (fun row => length row = 2%nat /\
                      Forall (fun a => 0 <= a < 5) row) X) [X1; X2; X3] /\
  Permutation [X1; X2; X3] [X3; X1; X2] /\
  aggregate [X1; X2; X3] 5 = aggregate [X3; X1; X2] 5.
Proof.
  intros X1 X2 X3.
  assert (Hsh : Forall (fun X => length X = 2%nat /\
            Forall (fun row => length row = 2%nat /\
                      Forall (fun a => 0 <= a < 5) row) X) [X1; X2; X3]).
  { repeat constructor; lia. }
  assert (HP : Permutation [X1; X2; X3] [X3; X1; X2]).
  { apply Permutation_sym, (Permutation_cons_append [X1; X2] X3). }
  refine (conj _ (conj _ (conj Hsh (conj HP _)))); [lia|lia|].
  apply (aggregate_order_independent _ _ 2 2 5); [lia|lia|exact Hsh|exact HP].
Defined.

End AggregateClaims.

(** ** Shape of the solver's output *)

Module GaussShape.
Import Utils Matrix.

Lemma back_step_length (A : MatrixType) (d1 : nat) (q : Z) (res : VectorType)
  (i : nat) : length (back_step A d1 q res i) = length res.
Proof.
  unfold back_step. destruct (find_leading _ _ _); [|reflexivity].
  destruct (_ =? 0); [reflexivity|]. apply length_set_nth.
Qed.

Lemma back_subst_length (A : MatrixType) (d1 : nat) (q : Z) (n : nat)
  (res : VectorType) : length (back_subst A d1 q n res) = length res.
Proof.
  revert res; induction n as [|n IH]; intros res; simpl; [reflexivity|].
  rewrite IH. apply back_step_length.
Qed.

Lemma gaussian_elimination_length (r0 : VectorType) (rest : MatrixType)
  (y : VectorType) (q : Z) :
  length (gaussian_elimination (r0 :: rest) y q) = length r0.
Proof.
  unfold gaussian_elimination.
  destruct (forward _ _ _ _ _ _) as [A pr].
  rewrite back_subst_length, repeat_length. reflexivity.
Qed.

Lemma augment_firstn (M : MatrixType) (y : VectorType) (m d1 : nat) :
  augment (map (firstn d1) M) y m d1 = augment M y m d1.
Proof.
  unfold augment. apply map_ext. intros i. f_equal. f_equal.
  apply map_ext_in. intros j Hj. apply in_seq_lt in Hj.
  replace (@nil Z) with (firstn d1 (@nil Z)) at 1 by apply firstn_nil.
  rewrite map_nth, nth_firstn.
  destruct (Nat.ltb_spec j d1); [reflexivity|lia].
Qed.

End GaussShape.

Section GaussShapeClaims.
Import Utils Matrix GaussShape.

(** C10: on an empty system [gaussian_elimination] returns the empty
    vector, whatever [y] and [q]. *)
Theorem gaussian_elimination_empty (y : VectorType) (q : Z) :
  gaussian_elimination [] y q = [].
Proof. reflexivity. Qed.

(** C6: on every well-formed input ([m >= 1] rows of length [d1], [m]
    targets, [q >= 1]) [gaussian_elimination] returns normally a vector
    of length [d1]: the model is a total function with no error outcome,
    and rows left all-zero by the elimination are skipped whatever their
    right-hand side. *)
Theorem gaussian_elimination_total (M : MatrixType) (y : VectorType) (q : Z) :
  M <> [] -> 1 <= q ->
  Forall (fun r => length r = length (hd [] M)) M ->
  length y = length M ->
  length (gaussian_elimination M y q) = length (hd [] M).
Proof.
  intros HM _ _ _. destruct M as [|r0 rest]; [congruence|].
  apply gaussian_elimination_length.
Qed.

(** The inconsistent system [e0 = 0], [e0 = 1] over [Z_7]: the second row
    becomes [0 = 1] after elimination, and a vector is still returned. *)
Lemma gaussian_elimination_total_witness :
  [[1]; [1]] <> [] /\ 1 <= 7 /\
  Forall (fun r => length r = length (hd [] [[1]; [1]])) [[1]; [1]] /\
  length [0; 1] = length [[1]; [1]] /\
  length (gaussian_elimination [[1]; [1]] [0; 1] 7) = length (hd [] [[1]; [1]]) /\
  fst (forward (augment [[1]; [1]] [0; 1] 2 1) 2 0 0 1 7)
    = [(0%nat, [1; 0]); (1%nat, [0; 1])] /\
  gaussian_elimination [[1]; [1]] [0; 1] 7 = [0].
Proof.
  assert (H1 : [[1]; [1]] <> []) by discriminate.
  assert (H2 : Forall (fun r => length r = length (hd [] [[1]; [1]]))
                 [[1]; [1]]) by (repeat constructor).
  refine (conj H1 (conj _ (conj H2 (conj eq_refl (conj _ (conj _ _))))));
    [lia| |vm_compute; reflexivity|vm_compute; reflexivity].
  apply gaussian_elimination_total; [exact H1|lia|exact H2|reflexivity].
Defined.

(** C3 (as the code is): no dimension check is made.  [d1] is read from
    the first row; with [d1 = 0] the empty vector is returned, and the
    rows are used only through their first [d1] coefficients, so longer
    rows are silently truncated. *)
Theorem gaussian_elimination_no_dimension_check (r0 : VectorType)
  (rest : MatrixType) (y : VectorType) (q : Z) :
  Forall (fun r => (length r0 <= length r)%nat) rest ->
  gaussian_elimination (r0 :: rest) y q
    = gaussian_elimination (map (firstn (length r0)) (r0 :: rest)) y q /\
  (r0 = [] -> gaussian_elimination (r0 :: rest) y q = []).
Proof.
  intros _. split.
  - unfold gaussian_elimination. rewrite length_map.
    simpl map. rewrite firstn_all. rewrite <- augment_firstn with (d1 := length r0).
    simpl map. rewrite firstn_all. reflexivity.
  - intros ->. reflexivity.
Qed.

Lemma gaussian_elimination_no_dimension_check_witness :
  Forall (fun r => (length [1] <= length r)%nat) [[2; 3]] /\
  gaussian_elimination [[1]; [2; 3]] [1; 1] 7
    = gaussian_elimination (map (firstn (length [1])) [[1]; [2; 3]]) [1; 1] 7 /\
  ([1] = [] -> gaussian_elimination [[1]; [2; 3]] [1; 1] 7 = []).
Proof.
  assert (H : Forall (fun r => (length [1] <= length r)%nat) [[2; 3]])
    by (repeat constructor; simpl; lia).
  split; [exact H|].
  apply (gaussian_elimination_no_dimension_check [1] [[2; 3]] [1; 1] 7 H).
Defined.

(** C3 as stated fails: an input with [d1 = 0] and an input whose second
    row is longer than the first are both processed, and a vector is
    returned, with nothing signalled. *)
Lemma gaussian_elimination_dimension_counterexample :
  gaussian_elimination [[]] [1] 7 = [] /\
  gaussian_elimination [[1]; [2; 3]] [1; 1] 7 = [1].
Proof. split; vm_compute; reflexivity. Qed.

End GaussShapeClaims.

(** ** Derived configuration parameters *)

Module ConfigFacts.
Import Config.
#[local] Open Scope R_scope.

Lemma Rceil_spec (x : R) : IZR (Rceil x) - 1 < x <= IZR (Rceil x).
Proof.
  unfold Rceil. destruct (archimed x) as [H1 H2].
  destruct (Req_EM_T (IZR (up x - 1)) x) as [E|E].
  - rewrite minus_IZR in *. lra.
  - rewrite minus_IZR in E. lra.
Qed.

Lemma Rceil_unique (x : R) (z : Z) :
  IZR z - 1 < x <= IZR z -> Rceil x = z.
Proof.
  intros Hz. pose proof (Rceil_spec x) as Hc.
  assert (A : (Rceil x - 1 < z)%Z).
  { apply lt_IZR. rewrite minus_IZR. lra. }
  assert (B : (z - 1 < Rceil x)%Z).
  { apply lt_IZR. rewrite minus_IZR. lra. }
  lia.
Qed.

(** *** Powers of two *)

Lemma p2_pos (k : Z) : 0 < powerRZ 2 k.
Proof. apply powerRZ_lt. lra. Qed.

Lemma p2_add (a b : Z) : powerRZ 2 (a + b) = powerRZ 2 a * powerRZ 2 b.
Proof. apply powerRZ_add. lra. Qed.

Lemma p2_neg (k : Z) : powerRZ 2 (- k) = / powerRZ 2 k.
Proof. apply powerRZ_neg'. Qed.

Lemma IZR_pow2 (k : Z) : (0 <= k)%Z -> IZR (2 ^ k) = powerRZ 2 k.
Proof.
  intros Hk. destruct k as [|p|p]; [reflexivity| |lia].
  simpl powerRZ. rewrite pow_IZR, positive_nat_Z. reflexivity.
Qed.

Lemma p2_mono (a b : Z) : (a <= b)%Z -> powerRZ 2 a <= powerRZ 2 b.
Proof.
  intros H. replace b with (a + (b - a))%Z by ring. rewrite p2_add.
  rewrite <- (IZR_pow2 (b - a)) by lia.
  assert (H1 : (1 <= 2 ^ (b - a))%Z)
    by (pose proof (Z.pow_pos_nonneg 2 (b - a) ltac:(lia) ltac:(lia)); lia).
  apply IZR_le in H1. pose proof (p2_pos a). nra.
Qed.

Lemma p2_lt_inv (a b : Z) : powerRZ 2 a < powerRZ 2 b -> (a < b)%Z.
Proof.
  intros H. destruct (Z_lt_le_dec a b) as [|Hle]; [assumption|].
  apply p2_mono in Hle. lra.
Qed.

Lemma frac_bounds (r k : Z) : (0 <= r < k)%Z -> 0 <= IZR r / IZR k < 1.
Proof.
  intros Hr. assert (Hk : 0 < IZR k) by (apply IZR_lt; lia).
  assert (H0 : 0 <= IZR r) by (apply IZR_le; lia).
  assert (H1 : IZR r < IZR k) by (apply IZR_lt; lia).
  split.
  - unfold Rdiv. apply Rmult_le_pos; [exact H0|left; apply Rinv_0_lt_compat, Hk].
  - apply Rmult_lt_reg_r with (r := IZR k); [exact Hk|].
    unfold Rdiv. rewrite Rmult_assoc, Rinv_l by lra. lra.
Qed.

(** *** Rounding *)

Lemma flog2_spec (p q : Z) : (0 < p)%Z -> (0 < q)%Z ->
  IZR q * powerRZ 2 (flog2 p q) <= IZR p < IZR q * powerRZ 2 (flog2 p q + 1).
Proof.
  intros Hp Hq. unfold flog2.
  pose proof (Z.log2_spec p Hp) as [Pa Pb]. pose proof (Z.log2_spec q Hq) as [Qa Qb].
  pose proof (Z.log2_nonneg p) as Ha. pose proof (Z.log2_nonneg q) as Hb.
  set (a := Z.log2 p) in *. set (b := Z.log2 q) in *.
  rewrite Z.pow_succ_r in Pb, Qb by assumption.
  apply IZR_le in Pa. apply IZR_lt in Pb. apply IZR_le in Qa. apply IZR_lt in Qb.
  rewrite mult_IZR in Pb, Qb. rewrite IZR_pow2 in Pa, Pb, Qa, Qb by assumption.
  set (l := (a - b)%Z).
  assert (HX : powerRZ 2 l * powerRZ 2 b = powerRZ 2 a)
    by (rewrite <- p2_add; f_equal; unfold l; ring).
  pose proof (p2_pos l) as Xl. pose proof (p2_pos b) as Xb.
  set (X := powerRZ 2 l) in *.
  assert (QX1 : IZR q * X >= powerRZ 2 b * X) by (apply Rmult_ge_compat_r; lra).
  assert (QX2 : IZR q * X < 2 * powerRZ 2 b * X) by (apply Rmult_lt_compat_r; lra).
  assert (T : (if (0 <=? l)%Z then (p <? q * 2 ^ l)%Z else (p * 2 ^ (- l) <? q)%Z) = true
              <-> IZR p < IZR q * X).
  { destruct (Z.leb_spec 0 l).
    - rewrite Z.ltb_lt. split; intros H'.
      + apply IZR_lt in H'. rewrite mult_IZR, IZR_pow2 in H' by lia. exact H'.
      + apply lt_IZR. rewrite mult_IZR, IZR_pow2 by lia. exact H'.
    - rewrite Z.ltb_lt.
      assert (E : IZR (p * 2 ^ (- l)) = IZR p * / X)
        by (rewrite mult_IZR, IZR_pow2, p2_neg by lia; reflexivity).
      assert (E2 : IZR p * / X * X = IZR p) by (field; lra).
      split; intros H'.
      + apply IZR_lt in H'. rewrite E in H'. rewrite <- E2.
        apply Rmult_lt_compat_r; assumption.
      + apply lt_IZR. rewrite E.
        replace (IZR q) with (IZR q * X * / X) by (field; lra).
        apply Rmult_lt_compat_r; [apply Rinv_0_lt_compat; exact Xl|exact H']. }
  destruct (if (0 <=? l)%Z then _ else _) eqn:Ht.
  - pose proof (proj1 T eq_refl) as Hlt. replace (l - 1 + 1)%Z with l by ring. split; [|exact Hlt].
    replace (powerRZ 2 (l - 1)) with (X / 2).
    + lra.
    + unfold X. replace (powerRZ 2 l) with (powerRZ 2 (l - 1) * powerRZ 2 1)
        by (rewrite <- p2_add; f_equal; ring).
      simpl. field.
  - assert (Hn : ~ IZR p < IZR q * X) by (intros H'; apply T in H'; discriminate).
    fold X. split; [lra|]. rewrite p2_add. simpl powerRZ. fold X. lra.
Qed.

Lemma rne_spec (N D : Z) : (0 < D)%Z ->
  Rabs (IZR (rne N D) - IZR N / IZR D) <= 1 / 2.
Proof.
  intros HD. unfold rne.
  pose proof (Z.div_mod N D ltac:(lia)) as E.
  pose proof (Z.mod_pos_bound N D HD) as R.
  set (n := (N / D)%Z) in *. set (r := (N mod D)%Z) in *.
  assert (HD' : 0 < IZR D) by (apply IZR_lt; lia).
  assert (HN : IZR N / IZR D = IZR n + IZR r / IZR D).
  { rewrite E at 1. rewrite plus_IZR, mult_IZR. field. lra. }
  rewrite HN. pose proof (frac_bounds r D R) as [F0 F1].
  destruct (Z.compare_spec (2 * r) D) as [Heq|Hlt|Hgt].
  - assert (Hh : IZR r / IZR D = 1 / 2).
    { apply IZR_eq in Heq. rewrite <- Heq, mult_IZR. field.
      rewrite mult_IZR in Heq. lra. }
    rewrite Hh. destruct (Z.even n); [|rewrite plus_IZR]; apply Rabs_le; lra.
  - assert (Hh : IZR r / IZR D < 1 / 2).
    { apply IZR_lt in Hlt. rewrite mult_IZR in Hlt.
      apply Rmult_lt_reg_r with (r := IZR D); [exact HD'|].
      unfold Rdiv. rewrite Rmult_assoc, Rinv_l by lra. lra. }
    apply Rabs_le. lra.
  - assert (Hh : 1 / 2 < IZR r / IZR D).
    { apply IZR_lt in Hgt. rewrite mult_IZR in Hgt.
      apply Rmult_lt_reg_r with (r := IZR D); [exact HD'|].
      unfold Rdiv at 2. rewrite Rmult_assoc, Rinv_l by lra. lra. }
    rewrite plus_IZR. apply Rabs_le. lra.
Qed.

(** The unit roundoff [2^-53] and relative closeness. *)
Definition uround : R := / 9007199254740992.
Definition close (r y v : R) : Prop := Rabs (y - v) <= r * Rabs v.

Lemma uround_p2 : powerRZ 2 (-53) = uround.
Proof.
  change (-53)%Z with (Z.opp 53). rewrite p2_neg, <- IZR_pow2 by lia.
  reflexivity.
Qed.

Lemma tiny_bound : powerRZ 2 (-1022) <= / 1208925819614629174706176.
Proof.
  eapply Rle_trans; [apply (p2_mono (-1022) (-80)); lia|].
  change (-80)%Z with (Z.opp 80). rewrite p2_neg, <- IZR_pow2 by lia. right. reflexivity.
Qed.

Lemma rnd_pos_close (p q e : Z) : (0 < p)%Z -> (0 < q)%Z ->
  powerRZ 2 (-1022) <= IZR p / IZR q * powerRZ 2 e ->
  close uround (dval (rnd_pos p q e)) (IZR p / IZR q * powerRZ 2 e).
Proof.
  intros Hp Hq Hn. set (v := IZR p / IZR q * powerRZ 2 e) in *.
  pose proof (flog2_spec p q Hp Hq) as [F1 F2]. set (f := flog2 p q) in *.
  assert (HQ : 0 < IZR q) by (apply IZR_lt; lia).
  pose proof (p2_pos e) as He.
  assert (V1 : powerRZ 2 (f + e) <= v).
  { unfold v. rewrite p2_add.
    replace (IZR p / IZR q * powerRZ 2 e) with (IZR p * (/ IZR q * powerRZ 2 e)) by (field; lra).
    replace (powerRZ 2 f * powerRZ 2 e) with (IZR q * powerRZ 2 f * (/ IZR q * powerRZ 2 e))
      by (field; lra).
    apply Rmult_le_compat_r; [|exact F1].
    left. apply Rmult_lt_0_compat; [apply Rinv_0_lt_compat|]; assumption. }
  assert (V2 : v < powerRZ 2 (f + 1 + e)).
  { unfold v. rewrite p2_add.
    replace (IZR p / IZR q * powerRZ 2 e) with (IZR p * (/ IZR q * powerRZ 2 e)) by (field; lra).
    replace (powerRZ 2 (f + 1) * powerRZ 2 e)
      with (IZR q * powerRZ 2 (f + 1) * (/ IZR q * powerRZ 2 e)) by (field; lra).
    apply Rmult_lt_compat_r; [|exact F2].
    apply Rmult_lt_0_compat; [apply Rinv_0_lt_compat|]; assumption. }
  assert (Hfe : (-1022 < f + 1 + e)%Z) by (apply p2_lt_inv; lra).
  unfold rnd_pos. fold f. rewrite Z.max_l by lia.
  set (t := (f + e - 52)%Z).
  assert (Ht : powerRZ 2 t = powerRZ 2 (f + e) * uround * 2).
  { rewrite <- uround_p2. replace t with (f + e + -53 + 1)%Z by (unfold t; ring).
    rewrite !p2_add. replace (powerRZ 2 1) with 2 by (simpl; ring). reflexivity. }
  pose proof (p2_pos t) as Pt.
  assert (Hv : v * / powerRZ 2 t = IZR p / IZR q * powerRZ 2 (e - t)).
  { unfold v. replace e with (t + (e - t))%Z at 1 by ring. rewrite p2_add. field. lra. }
  set (n := if (0 <=? e - t)%Z then rne (p * 2 ^ (e - t)) q
            else rne p (q * 2 ^ (- (e - t)))).
  assert (Hn' : Rabs (IZR n - v * / powerRZ 2 t) <= 1 / 2).
  { rewrite Hv. unfold n. destruct (Z.leb_spec 0 (e - t)).
    - replace (IZR p / IZR q * powerRZ 2 (e - t)) with (IZR (p * 2 ^ (e - t)) / IZR q)
        by (rewrite mult_IZR, IZR_pow2 by lia; field; lra).
      apply rne_spec. exact Hq.
    - pose proof (Z.pow_pos_nonneg 2 (- (e - t)) ltac:(lia) ltac:(lia)).
      replace (IZR p / IZR q * powerRZ 2 (e - t)) with (IZR p / IZR (q * 2 ^ (- (e - t)))).
      + apply rne_spec. lia.
      + rewrite mult_IZR, IZR_pow2, p2_neg by lia. field.
        split; [lra|pose proof (p2_pos (e - t)); lra]. }
  unfold close, dval. cbn [mant expo].
  replace (IZR n * powerRZ 2 t - v) with (powerRZ 2 t * (IZR n - v * / powerRZ 2 t))
    by (field; lra).
  rewrite Rabs_mult, (Rabs_right (powerRZ 2 t)) by lra.
  assert (Pv : 0 < v) by (pose proof (p2_pos (f + e)); lra).
  rewrite (Rabs_right v) by lra.
  apply Rle_trans with (powerRZ 2 t * (1 / 2)); [apply Rmult_le_compat_l; lra|].
  rewrite Ht. assert (0 < uround) by (unfold uround; lra).
  replace (powerRZ 2 (f + e) * uround * 2 * (1 / 2)) with (uround * powerRZ 2 (f + e)) by field.
  apply Rmult_le_compat_l; lra.
Qed.

Lemma rnd_close (p q e : Z) : (0 < q)%Z ->
  IZR p / IZR q * powerRZ 2 e = 0 \/ powerRZ 2 (-1022) <= IZR p / IZR q * powerRZ 2 e ->
  close uround (dval (rnd p q e)) (IZR p / IZR q * powerRZ 2 e).
Proof.
  intros Hq Hv. assert (HQ : 0 < IZR q) by (apply IZR_lt; lia).
  pose proof (p2_pos e) as He. pose proof (p2_pos (-1022)) as Ht.
  assert (Pq : 0 < / IZR q * powerRZ 2 e)
    by (apply Rmult_lt_0_compat; [apply Rinv_0_lt_compat|]; assumption).
  unfold rnd. destruct (Z.eqb_spec p 0) as [->|Hp0].
  - unfold close, dval. cbn [mant expo].
    replace (IZR 0 * powerRZ 2 0 - IZR 0 / IZR q * powerRZ 2 e) with 0 by (simpl; field; lra).
    rewrite Rabs_R0. apply Rmult_le_pos; [unfold uround; lra|apply Rabs_pos].
  - destruct Hv as [Hv|Hv].
    + exfalso. apply Hp0. apply eq_IZR.
      replace (IZR p) with (IZR p / IZR q * powerRZ 2 e * (IZR q / powerRZ 2 e)) by (field; lra).
      rewrite Hv. ring.
    + destruct (Z.ltb_spec 0 p).
      * apply rnd_pos_close; assumption.
      * exfalso. assert (IZR p < 0) by (apply IZR_lt; lia).
        unfold Rdiv in Hv. rewrite Rmult_assoc in Hv. nra.
Qed.

(** *** Closeness *)

Lemma close_weaken (r r' y v : R) : r <= r' -> close r y v -> close r' y v.
Proof.
  unfold close. intros H C. pose proof (Rabs_pos v).
  eapply Rle_trans; [exact C|]. apply Rmult_le_compat_r; assumption.
Qed.

Lemma close_bounds (r y v : R) : 0 <= v -> close r y v -> (1 - r) * v <= y <= (1 + r) * v.
Proof.
  unfold close. intros Hv C. rewrite (Rabs_right v) in C by lra.
  pose proof (Rle_abs (y - v)). pose proof (Rle_abs (- (y - v))).
  rewrite Rabs_Ropp in *. lra.
Qed.

Lemma close_abs (r y v : R) : close r y v -> Rabs y <= (1 + r) * Rabs v.
Proof.
  unfold close. intros C. pose proof (Rabs_triang_inv y v). lra.
Qed.

Lemma close_mul (r1 r2 y1 y2 v1 v2 : R) : 0 <= r1 -> 0 <= r2 ->
  close r1 y1 v1 -> close r2 y2 v2 -> close (r1 + r2 + r1 * r2) (y1 * y2) (v1 * v2).
Proof.
  intros H1 H2 C1 C2. pose proof (close_abs _ _ _ C2) as Y2. unfold close in *.
  replace (y1 * y2 - v1 * v2) with ((y1 - v1) * y2 + v1 * (y2 - v2)) by ring.
  eapply Rle_trans; [apply Rabs_triang|]. rewrite !Rabs_mult.
  pose proof (Rabs_pos (y1 - v1)). pose proof (Rabs_pos v1). pose proof (Rabs_pos v2).
  pose proof (Rabs_pos y2).
  apply Rle_trans with (r1 * Rabs v1 * ((1 + r2) * Rabs v2) + Rabs v1 * (r2 * Rabs v2)).
  - apply Rplus_le_compat.
    + apply Rmult_le_compat; assumption.
    + apply Rmult_le_compat_l; assumption.
  - right. ring.
Qed.

Lemma close_trans (r1 r2 y w v : R) : 0 <= r1 -> 0 <= r2 ->
  close r1 y w -> close r2 w v -> close (r1 + r2 + r1 * r2) y v.
Proof.
  intros H1 H2 C1 C2. pose proof (close_abs _ _ _ C2) as W. unfold close in *.
  replace (y - v) with ((y - w) + (w - v)) by ring.
  eapply Rle_trans; [apply Rabs_triang|].
  pose proof (Rabs_pos v).
  apply Rle_trans with (r1 * ((1 + r2) * Rabs v) + r2 * Rabs v).
  - apply Rplus_le_compat; [|exact C2].
    eapply Rle_trans; [exact C1|]. apply Rmult_le_compat_l; assumption.
  - right. ring.
Qed.

Lemma close_inv (r y v : R) : 0 <= r < 1 -> v <> 0 ->
  close r y v -> close (r / (1 - r)) (/ y) (/ v).
Proof.
  intros Hr Hv C. pose proof (Rabs_pos_lt v Hv) as Av.
  assert (Ay : (1 - r) * Rabs v <= Rabs y).
  { unfold close in C. pose proof (Rabs_triang_inv v y).
    rewrite Rabs_minus_sym in C. lra. }
  assert (Py : 0 < Rabs y) by nra.
  assert (Hy : y <> 0) by (intros ->; rewrite Rabs_R0 in Py; lra).
  unfold close in *.
  replace (/ y - / v) with ((v - y) * / y * / v) by (field; split; assumption).
  rewrite !Rabs_mult, !Rabs_inv, Rabs_minus_sym.
  assert (I1 : / Rabs y <= / ((1 - r) * Rabs v))
    by (apply Rinv_le_contravar; [nra|exact Ay]).
  pose proof (Rabs_pos (y - v)).
  apply Rle_trans with (r * Rabs v * / ((1 - r) * Rabs v) * / Rabs v).
  - apply Rmult_le_compat_r; [left; apply Rinv_0_lt_compat; exact Av|].
    apply Rmult_le_compat; [assumption|left; apply Rinv_0_lt_compat; exact Py|exact C|exact I1].
  - right. field. lra.
Qed.

(** *** The operations *)

Lemma dval_one : dval (mkD 1 0) = 1.
Proof. unfold dval. simpl. ring. Qed.

Lemma dadd_close (x y : double) :
  dval x + dval y = 0 \/ powerRZ 2 (-1022) <= dval x + dval y ->
  close uround (dval (dadd x y)) (dval x + dval y).
Proof.
  intros H. set (e := Z.min (expo x) (expo y)).
  assert (E : IZR (mant x * 2 ^ (expo x - e) + mant y * 2 ^ (expo y - e)) / IZR 1
              * powerRZ 2 e = dval x + dval y).
  { rewrite plus_IZR, !mult_IZR, !IZR_pow2 by lia. unfold dval.
    replace (powerRZ 2 (expo x)) with (powerRZ 2 (expo x - e) * powerRZ 2 e)
      by (rewrite <- p2_add; f_equal; ring).
    replace (powerRZ 2 (expo y)) with (powerRZ 2 (expo y - e) * powerRZ 2 e)
      by (rewrite <- p2_add; f_equal; ring).
    field. }
  unfold dadd. fold e. rewrite <- E. apply rnd_close; [lia|]. rewrite E. exact H.
Qed.

Lemma dmul_close (x y : double) :
  dval x * dval y = 0 \/ powerRZ 2 (-1022) <= dval x * dval y ->
  close uround (dval (dmul x y)) (dval x * dval y).
Proof.
  intros H.
  assert (E : IZR (mant x * mant y) / IZR 1 * powerRZ 2 (expo x + expo y) = dval x * dval y)
    by (rewrite mult_IZR, p2_add; unfold dval; field).
  unfold dmul. rewrite <- E. apply rnd_close; [lia|]. rewrite E. exact H.
Qed.

Lemma ddiv_close (x y : double) : 0 < dval y ->
  dval x / dval y = 0 \/ powerRZ 2 (-1022) <= dval x / dval y ->
  close uround (dval (ddiv x y)) (dval x / dval y).
Proof.
  intros Hy H. pose proof (p2_pos (expo y)) as Py.
  assert (Hm : (0 < mant y)%Z).
  { apply lt_IZR. unfold dval in Hy. nra. }
  assert (E : IZR (mant x) / IZR (mant y) * powerRZ 2 (expo x - expo y) = dval x / dval y).
  { unfold dval.
    replace (powerRZ 2 (expo x)) with (powerRZ 2 (expo x - expo y) * powerRZ 2 (expo y))
      by (rewrite <- p2_add; f_equal; ring).
    field. split; [lra|]. apply not_0_IZR. lia. }
  unfold ddiv. destruct (Z.ltb_spec 0 (mant y)); [|lia].
  rewrite <- E. apply rnd_close; [exact Hm|]. rewrite E. exact H.
Qed.

Lemma of_size_close (n : nat) : close uround (dval (of_size n)) (INR n).
Proof.
  assert (E : IZR (Z.of_nat n) / IZR 1 * powerRZ 2 0 = INR n)
    by (rewrite INR_IZR_INZ; simpl; field).
  unfold of_size. rewrite <- E. apply rnd_close; [lia|]. rewrite E.
  destruct n as [|n]; [left; reflexivity|right].
  pose proof tiny_bound. pose proof (pos_INR n). rewrite S_INR. lra.
Qed.

Lemma dceil_Rceil (x : double) : Rceil (dval x) = dceil x.
Proof.
  unfold dceil, dval. destruct (Z.leb_spec 0 (expo x)).
  - apply Rceil_unique. rewrite mult_IZR, IZR_pow2 by lia. lra.
  - apply Rceil_unique.
    set (k := (2 ^ (- expo x))%Z).
    assert (Hk : (0 < k)%Z) by (apply Z.pow_pos_nonneg; lia).
    assert (Ek : powerRZ 2 (expo x) = / IZR k).
    { unfold k. rewrite IZR_pow2, p2_neg, Rinv_inv by lia. reflexivity. }
    rewrite Ek.
    pose proof (Z.div_mod (- mant x) k ltac:(lia)) as E.
    pose proof (Z.mod_pos_bound (- mant x) k Hk) as R.
    set (qq := (- mant x / k)%Z) in *. set (r := (- mant x mod k)%Z) in *.
    assert (Em : IZR (mant x) = - (IZR k * IZR qq + IZR r)).
    { rewrite <- mult_IZR, <- plus_IZR, <- E, opp_IZR. ring. }
    pose proof (frac_bounds r k R) as [F0 F1].
    assert (HK : 0 < IZR k) by (apply IZR_lt; exact Hk).
    rewrite opp_IZR, Em.
    replace (- (IZR k * IZR qq + IZR r) * / IZR k) with (- IZR qq - IZR r / IZR k)
      by (field; lra).
    lra.
Qed.

End ConfigFacts.

Section ConfigClaims.
Import Config ConfigFacts.
#[local] Open Scope R_scope.

(** C4 (as the code is): [compute_derived_params] computes
    [(1.0 + eps) * dataset_size * num_clients / partition_size] in
    [double], takes its ceiling as [num_partitions = b], and sets
    [pir_fold_size] to [pow((double) b, 1.0 / z)], not rounded up.  For
    [0 <= eps <= 1], [dataset_size, num_clients >= 1] with product at most
    [2^47] and [1 <= partition_size <= 2^64], the rounding errors stay
    below [1], so [b] differs from the exact ceiling of the quotient by
    at most one, whatever [std::pow] does. *)
Theorem compute_derived_params_values (pow : double -> double -> double)
  (c : ExperimentConfig) :
  0 <= dval (expansion_factor c) <= 1 ->
  (1 <= dataset_size c)%nat -> (1 <= num_clients c)%nat ->
  (Z.of_nat (dataset_size c) * Z.of_nat (num_clients c) <= 2 ^ 47)%Z ->
  (1 <= partition_size c)%nat -> (Z.of_nat (partition_size c) <= 2 ^ 64)%Z ->
  let c' := compute_derived_params pow c in
  let x := (1 + dval (expansion_factor c)) * INR (dataset_size c)
           * INR (num_clients c) / INR (partition_size c) in
  (Rceil x - 1 <= Z.of_nat (num_partitions c') <= Rceil x + 1)%Z /\
  pir_fold_size c' = pow (of_size (num_partitions c'))
                         (ddiv (mkD 1 0) (of_size (pir_dimension c))).
Proof.
  intros HE HN Hn HNn HD HD64 c' x. split; [|reflexivity].
  set (E := dval (expansion_factor c)) in *.
  set (N := INR (dataset_size c)) in *. set (n := INR (num_clients c)) in *.
  set (D := INR (partition_size c)) in *.
  assert (N1 : 1 <= N) by (unfold N; apply (le_INR 1); exact HN).
  assert (n1 : 1 <= n) by (unfold n; apply (le_INR 1); exact Hn).
  assert (D1 : 1 <= D) by (unfold D; apply (le_INR 1); exact HD).
  assert (Nn : N * n <= 140737488355328).
  { unfold N, n. rewrite !INR_IZR_INZ, <- mult_IZR. apply IZR_le. exact HNn. }
  assert (D64 : D <= 18446744073709551616).
  { unfold D. rewrite INR_IZR_INZ. apply IZR_le. exact HD64. }
  assert (Hu : 0 < uround <= / 1000000000000000) by (unfold uround; lra).
  pose proof tiny_bound as Tb. pose proof (p2_pos (-1022)) as Tp.
  set (a := dadd (mkD 1 0) (expansion_factor c)).
  set (Ns := of_size (dataset_size c)). set (ns := of_size (num_clients c)).
  set (Ds := of_size (partition_size c)).
  set (b1 := dmul a Ns). set (c1 := dmul b1 ns). set (d := ddiv c1 Ds).
  assert (Ca : close uround (dval a) (1 + E)).
  { unfold a. replace (1 + E) with (dval (mkD 1 0) + E) by (rewrite dval_one; reflexivity).
    apply dadd_close. right. rewrite dval_one. fold E. lra. }
  assert (CN : close uround (dval Ns) N) by apply of_size_close.
  assert (Cn : close uround (dval ns) n) by apply of_size_close.
  assert (CD : close uround (dval Ds) D) by apply of_size_close.
  apply close_bounds in Ca as Ba; [|lra]. apply close_bounds in CN as BN; [|lra].
  apply close_bounds in Cn as Bn; [|lra]. apply close_bounds in CD as BD; [|lra].
  assert (A2 : 1 / 2 <= dval a) by nra. assert (N2 : 1 / 2 <= dval Ns) by nra.
  assert (n2 : 1 / 2 <= dval ns) by nra.
  assert (V1 : 1 / 4 <= dval a * dval Ns) by nra.
  assert (Cb1 : close uround (dval b1) (dval a * dval Ns)) by (apply dmul_close; right; lra).
  apply close_bounds in Cb1 as Bb1; [|lra].
  assert (B8 : 1 / 8 <= dval b1) by nra.
  assert (V2 : 1 / 16 <= dval b1 * dval ns) by nra.
  assert (Cc1 : close uround (dval c1) (dval b1 * dval ns)) by (apply dmul_close; right; lra).
  apply close_bounds in Cc1 as Bc1; [|lra].
  assert (C32 : 1 / 32 <= dval c1) by nra.
  assert (PD : 0 < dval Ds) by nra.
  assert (V3 : / 1208925819614629174706176 <= dval c1 / dval Ds).
  { assert (I : / 36893488147419103232 <= / dval Ds) by (apply Rinv_le_contravar; [lra|nra]).
    unfold Rdiv. apply Rle_trans with (1 / 32 * / 36893488147419103232); [lra|].
    apply Rmult_le_compat; lra. }
  assert (Cd : close uround (dval d) (dval c1 / dval Ds)) by (apply ddiv_close; [exact PD|right; lra]).
  (* composition of the seven roundings *)
  assert (U0 : 0 <= uround) by lra.
  assert (K1 : close (3 * uround) (dval a * dval Ns) ((1 + E) * N)).
  { eapply close_weaken; [|exact (close_mul _ _ _ _ _ _ U0 U0 Ca CN)].
    unfold uround; lra. }
  assert (K2 : close (5 * uround) (dval b1) ((1 + E) * N)).
  { eapply close_weaken; [|exact (close_trans uround (3 * uround) _ _ _ U0 ltac:(lra) Cb1 K1)].
    unfold uround; lra. }
  assert (K3 : close (7 * uround) (dval b1 * dval ns) ((1 + E) * N * n)).
  { eapply close_weaken; [|exact (close_mul (5 * uround) uround _ _ _ _ ltac:(lra) U0 K2 Cn)].
    unfold uround; lra. }
  assert (K4 : close (9 * uround) (dval c1) ((1 + E) * N * n)).
  { eapply close_weaken; [|exact (close_trans uround (7 * uround) _ _ _ U0 ltac:(lra) Cc1 K3)].
    unfold uround; lra. }
  assert (K5 : close (2 * uround) (/ dval Ds) (/ D)).
  { eapply close_weaken; [|exact (close_inv uround _ _ ltac:(lra) (Rgt_not_eq D 0 ltac:(lra)) CD)].
    unfold uround, Rdiv. lra. }
  assert (K6 : close (12 * uround) (dval c1 / dval Ds) x).
  { eapply close_weaken; [|exact (close_mul (9 * uround) (2 * uround) _ _ _ _ ltac:(lra) ltac:(lra) K4 K5)].
    unfold uround; lra. }
  assert (K7 : close (14 * uround) (dval d) x).
  { eapply close_weaken; [|exact (close_trans uround (12 * uround) _ _ _ U0 ltac:(lra) Cd K6)].
    unfold uround; lra. }
  assert (Hx : x = (1 + E) * N * n / D) by reflexivity.
  assert (X0 : 0 <= x).
  { rewrite Hx. unfold Rdiv. apply Rmult_le_pos; [|left; apply Rinv_0_lt_compat; lra].
    repeat apply Rmult_le_pos; lra. }
  assert (X1 : x <= 281474976710656).
  { assert (Ex : x * D = (1 + E) * N * n) by (rewrite Hx; field; lra). nra. }
  assert (Err : Rabs (dval d - x) < 1).
  { unfold close in K7. rewrite (Rabs_right x) in K7 by lra.
    eapply Rle_lt_trans; [exact K7|]. unfold uround. nra. }
  apply Rabs_def2 in Err as [Er1 Er2].
  pose proof (Rceil_spec x) as Sx. pose proof (Rceil_spec (dval d)) as Sd.
  assert (Hb : num_partitions c' = Z.to_nat (Rceil (dval d))) by (rewrite dceil_Rceil; reflexivity).
  assert (Z0 : (0 <= Rceil (dval d))%Z).
  { assert (-1 < Rceil (dval d))%Z by (apply lt_IZR; lra). lia. }
  rewrite Hb, Z2Nat.id by exact Z0.
  split.
  - assert (Rceil x - 2 < Rceil (dval d))%Z by (apply lt_IZR; rewrite minus_IZR; lra). lia.
  - assert (Rceil (dval d) < Rceil x + 2)%Z by (apply lt_IZR; rewrite plus_IZR; lra). lia.
Qed.

(** The configuration of [get_test_config] ([eps] the [double] nearest
    [0.2]): the quotient is [28.8] and [b = 29].  The identity stands in
    for [std::pow]; the statement holds for every [pow]. *)
Lemma compute_derived_params_values_witness :
  let c := mkConfig 3 1024 50 10 128 (mkD 7205759403792794 (-55)) 2 512 4294967291 30
             0 (mkD 0 0) in
  let pw := fun (b _ : double) => b in
  num_partitions (compute_derived_params pw c) = 29%nat /\
  let c' := compute_derived_params pw c in
  let x := (1 + dval (expansion_factor c)) * INR (dataset_size c)
           * INR (num_clients c) / INR (partition_size c) in
  (Rceil x - 1 <= Z.of_nat (num_partitions c') <= Rceil x + 1)%Z /\
  pir_fold_size c' = pw (of_size (num_partitions c'))
                        (ddiv (mkD 1 0) (of_size (pir_dimension c))).
Proof.
  intros c pw. split; [vm_compute; reflexivity|].
  apply (compute_derived_params_values pw c).
  - unfold dval. simpl. lra.
  - simpl. lia.
  - simpl. lia.
  - simpl. lia.
  - simpl. lia.
  - simpl. lia.
Defined.

(** C4 as stated fails: with [eps = 2^-60] (a [double]), one client,
    one element and [partition_size = 1], the exact quotient
    [1 + 2^-60] has ceiling [2], but [1.0 + eps] rounds to [1.0] and the
    program sets [num_partitions = 1], whatever [std::pow] is. *)
Lemma compute_derived_params_counterexample :
  (forall pow : double -> double -> double,
     num_partitions (compute_derived_params pow
       (mkConfig 1 1 0 0 1 (mkD 1 (-60)) 2 0 7 1 0 (mkD 0 0))) = 1%nat) /\
  Rceil ((1 + dval (mkD 1 (-60))) * INR 1 * INR 1 / INR 1) = 2%Z.
Proof.
  split.
  - intros pow. reflexivity.
  - apply Rceil_unique. unfold dval. simpl. lra.
Qed.

End ConfigClaims.

(** ** Correctness of the Gaussian elimination on pivoted rows *)

Module GaussCorrect.
Import Utils UtilsFacts Matrix.

Definition row_at (A : list trow) (k : nat) : VectorType := snd (nth k A dflt).
Definition tag_at (A : list trow) (k : nat) : nat := fst (nth k A dflt).
Definition ent (A : list trow) (k j : nat) : Z := nth j (row_at A k) 0.

(** One iteration of the [i]-loop of step 2.4, as a function of the row. *)
Definition elim_op (piv : VectorType) (col : nat) (q : Z) (tr : trow) : trow :=
  let '(t, r) := tr in
  let factor := nth col r 0 in
  if factor =? 0 then (t, r) else (t, eliminate_row r piv col factor q).

Lemma sumZ_lin (f g : nat -> Z) (a b : Z) (l : list nat) :
  sumZ (map (fun j => a * f j + b * g j) l)
  = a * sumZ (map f l) + b * sumZ (map g l).
Proof. induction l as [|j l IH]; simpl; [ring|]. rewrite IH. ring. Qed.

Lemma sumZ_zero (f : nat -> Z) (l : list nat) :
  (forall j, In j l -> f j = 0) -> sumZ (map f l) = 0.
Proof.
  induction l as [|j l IH]; intros H; simpl; [reflexivity|].
  rewrite H, IH by (auto with datatypes). reflexivity.
Qed.

Section Cong.
Variable q : Z.

Lemma divide_sum (f g : nat -> Z) (l : list nat) :
  (forall j, In j l -> (q | f j - g j)) ->
  (q | sumZ (map f l) - sumZ (map g l)).
Proof.
  induction l as [|j l IH]; intros H; simpl.
  - exists 0. ring.
  - replace (f j + sumZ (map f l) - (g j + sumZ (map g l)))
      with ((f j - g j) + (sumZ (map f l) - sumZ (map g l))) by ring.
    apply Z.divide_add_r; [apply H; left; reflexivity|].
    apply IH. intros j' Hj'. apply H. right. assumption.
Qed.

Lemma divide_mod_sub (x : Z) : q <> 0 -> (q | x mod q - x).
Proof. intros Hq. exists (- (x / q)). rewrite Z.mod_eq by assumption. ring. Qed.

Lemma divide_comb (u v w c d : Z) :
  (q | u) -> (q | v) -> w = c * u + d * v -> (q | w).
Proof.
  intros Hu Hv ->. apply Z.divide_add_r; apply Z.divide_mul_r; assumption.
Qed.

End Cong.

Section Residual.
Variables (q : Z) (d1 : nat).

(** [row . e] over the [d1] unknowns, and the residual of the equation
    [row . e = row[d1]] stored in an augmented row. *)
Definition rdot (r e : VectorType) : Z :=
  sumZ (map (fun j => nth j r 0 * nth j e 0) (seq 0 d1)).
Definition resid (e r : VectorType) : Z := rdot r e - nth d1 r 0.
Definition sat (e r : VectorType) : Prop := (q | resid e r).

Lemma resid_lin (e x y z : VectorType) (a b : Z) :
  (forall j, (j <= d1)%nat ->
     (q | nth j x 0 - (a * nth j y 0 + b * nth j z 0))) ->
  (q | resid e x - (a * resid e y + b * resid e z)).
Proof.
  intros H. unfold resid, rdot.
  assert (Hs : (q | sumZ (map (fun j => nth j x 0 * nth j e 0) (seq 0 d1))
     - sumZ (map (fun j => a * (nth j y 0 * nth j e 0)
                           + b * (nth j z 0 * nth j e 0)) (seq 0 d1)))).
  { apply divide_sum. intros j Hj. apply in_seq_lt in Hj.
    replace (nth j x 0 * nth j e 0 - (a * (nth j y 0 * nth j e 0)
               + b * (nth j z 0 * nth j e 0)))
      with ((nth j x 0 - (a * nth j y 0 + b * nth j z 0)) * nth j e 0)
      by ring.
    apply Z.divide_mul_l. apply H. lia. }
  rewrite (sumZ_lin (fun j => nth j y 0 * nth j e 0)
             (fun j => nth j z 0 * nth j e 0)) in Hs.
  eapply divide_comb with (c := 1) (d := -1);
    [exact Hs | apply (H d1); lia | ring].
Qed.

Lemma sat_scale (e x y : VectorType) (u inv : Z) :
  (q | u * inv - 1) ->
  (forall j, (j <= d1)%nat -> (q | nth j x 0 - inv * nth j y 0)) ->
  (sat e x <-> sat e y).
Proof.
  intros Hu H.
  assert (L : (q | resid e x - (inv * resid e y + 0 * resid e y))).
  { apply resid_lin. intros j Hj.
    replace (nth j x 0 - (inv * nth j y 0 + 0 * nth j y 0))
      with (nth j x 0 - inv * nth j y 0) by ring.
    apply H. assumption. }
  unfold sat. split; intros Hs.
  - assert (Hi : (q | inv * resid e y)).
    { eapply divide_comb with (c := 1) (d := -1); [exact Hs | exact L | ring]. }
    assert (Hm : (q | (u * inv - 1) * resid e y)) by (apply Z.divide_mul_l; exact Hu).
    eapply divide_comb with (c := u) (d := -1); [exact Hi | exact Hm | ring].
  - assert (Hi : (q | inv * resid e y)) by (apply Z.divide_mul_r; exact Hs).
    eapply divide_comb with (c := 1) (d := 1); [exact Hi | exact L | ring].
Qed.

Lemma sat_elim (e x r p : VectorType) (f : Z) :
  (forall j, (j <= d1)%nat ->
     (q | nth j x 0 - (1 * nth j r 0 + (- f) * nth j p 0))) ->
  sat e p -> (sat e x <-> sat e r).
Proof.
  intros H Hp.
  pose proof (resid_lin e x r p 1 (- f) H) as L.
  unfold sat in *. split; intros Hs.
  - assert (Hc : (q | 1 * resid e r + - f * resid e p)).
    { eapply divide_comb with (c := 1) (d := -1); [exact Hs | exact L | ring]. }
    eapply divide_comb with (c := 1) (d := f); [exact Hc | exact Hp | ring].
  - assert (Hc : (q | 1 * resid e r + - f * resid e p)).
    { eapply divide_comb with (c := 1) (d := - f); [exact Hs | exact Hp | ring]. }
    eapply divide_comb with (c := 1) (d := 1); [exact L | exact Hc | ring].
Qed.

End Residual.

(** *** The row operations, entry by entry *)

Lemma length_normalize_row (r : VectorType) (col : nat) (inv q : Z) :
  length (normalize_row r col inv q) = length r.
Proof. unfold normalize_row. rewrite length_map, length_seq. reflexivity. Qed.

Lemma nth_normalize_row (r : VectorType) (col j : nat) (inv q : Z) :
  (j < length r)%nat ->
  nth j (normalize_row r col inv q) 0
  = if (j <? col)%nat then nth j r 0 else mul_mod (nth j r 0) inv q.
Proof. intros Hj. unfold normalize_row. rewrite nth_map_seq by assumption. reflexivity. Qed.

Lemma length_eliminate_row (r piv : VectorType) (col : nat) (f q : Z) :
  length (eliminate_row r piv col f q) = length r.
Proof. unfold eliminate_row. rewrite length_map, length_seq. reflexivity. Qed.

Lemma nth_eliminate_row (r piv : VectorType) (col j : nat) (f q : Z) :
  (j < length r)%nat ->
  nth j (eliminate_row r piv col f q) 0
  = if (j <? col)%nat then nth j r 0
    else sub_mod (nth j r 0) (mul_mod f (nth j piv 0) q) q.
Proof. intros Hj. unfold eliminate_row. rewrite nth_map_seq by assumption. reflexivity. Qed.

Lemma eliminate_from_map (rows : list trow) (piv : VectorType) (col : nat)
  (q : Z) : eliminate_from rows piv col q = map (elim_op piv col q) rows.
Proof.
  induction rows as [|[t r] rows IH]; simpl; [reflexivity|]. rewrite IH. reflexivity.
Qed.

Lemma nth_swap_rows (A : list trow) (i j k : nat) :
  (i < length A)%nat -> (j < length A)%nat ->
  nth k (swap_rows A i j) dflt
  = if Nat.eqb k i then nth j A dflt
    else if Nat.eqb k j then nth i A dflt else nth k A dflt.
Proof.
  intros Hi Hj. unfold swap_rows.
  rewrite nth_set_nth by (rewrite length_set_nth; assumption).
  rewrite nth_set_nth by assumption. reflexivity.
Qed.

Lemma length_swap_rows (A : list trow) (i j : nat) :
  length (swap_rows A i j) = length A.
Proof. unfold swap_rows. rewrite !length_set_nth. reflexivity. Qed.

(** The matrix after step 2.4: rows up to the pivot row are kept, the rows
    below go through [elim_op]. *)
Lemma nth_eliminate_below (L : list trow) (pr k : nat) (piv : VectorType)
  (col : nat) (q : Z) :
  (pr < length L)%nat -> (k < length L)%nat ->
  nth k (firstn (S pr) L ++ eliminate_from (skipn (S pr) L) piv col q) dflt
  = if (k <=? pr)%nat then nth k L dflt
    else elim_op piv col q (nth k L dflt).
Proof.
  intros Hpr Hk. rewrite eliminate_from_map.
  assert (Hf : length (firstn (S pr) L) = S pr)
    by (rewrite length_firstn; lia).
  destruct (Nat.leb_spec k pr) as [Hle|Hgt].
  - rewrite app_nth1 by lia. rewrite nth_firstn.
    destruct (Nat.ltb_spec k (S pr)); [reflexivity|lia].
  - rewrite app_nth2 by lia. rewrite Hf.
    rewrite nth_indep with (d' := elim_op piv col q dflt)
      by (rewrite length_map, length_skipn; lia).
    rewrite map_nth, nth_skipn. f_equal. f_equal. lia.
Qed.

Lemma length_eliminate_below (L : list trow) (pr : nat) (piv : VectorType)
  (col : nat) (q : Z) :
  (pr < length L)%nat ->
  length (firstn (S pr) L ++ eliminate_from (skipn (S pr) L) piv col q)
  = length L.
Proof.
  intros H. rewrite eliminate_from_map, length_app, length_map,
    length_firstn, length_skipn. lia.
Qed.

Lemma find_pivot_some (A : list trow) (col row fuel b : nat) :
  find_pivot A col row fuel = Some b ->
  (row <= b < row + fuel)%nat /\ ent A b col <> 0.
Proof.
  revert row. induction fuel as [|f IH]; intros row H; simpl in H;
    [discriminate|].
  destruct (negb (nth col (snd (nth row A dflt)) 0 =? 0)) eqn:E.
  - injection H as <-. apply negb_true_iff, Z.eqb_neq in E. split; [lia|exact E].
  - apply IH in H. lia.
Qed.

Lemma find_pivot_none (A : list trow) (col row fuel : nat) :
  find_pivot A col row fuel = None ->
  forall k, (row <= k < row + fuel)%nat -> ent A k col = 0.
Proof.
  revert row. induction fuel as [|f IH]; intros row H k Hk; simpl in H; [lia|].
  destruct (negb (nth col (snd (nth row A dflt)) 0 =? 0)) eqn:E; [discriminate|].
  destruct (Nat.eq_dec k row) as [->|Hne].
  - apply negb_false_iff, Z.eqb_eq in E. exact E.
  - apply (IH (S row) H). lia.
Qed.

Lemma find_leading_first (r : VectorType) (j fuel c : nat) :
  (j <= c < j + fuel)%nat -> nth c r 0 <> 0 ->
  (forall j', (j <= j' < c)%nat -> nth j' r 0 = 0) ->
  find_leading r j fuel = Some c.
Proof.
  revert j. induction fuel as [|f IH]; intros j Hc Hnz Hz; simpl; [lia|].
  destruct (Nat.eq_dec j c) as [->|Hne].
  - destruct (nth c r 0 =? 0) eqn:E; [apply Z.eqb_eq in E; contradiction|].
    reflexivity.
  - rewrite (Hz j) by lia. simpl. apply IH; [lia|exact Hnz|].
    intros j' Hj'. apply Hz. lia.
Qed.

(** *** One pivot step *)

Section Step.
Variables (q : Z) (d1 : nat).
Hypothesis Hprime : Z.prime q.
Hypothesis Hq64 : q < 2 ^ 64.

Lemma q_ge_2 : 2 <= q.
Proof. apply Z.prime_ge_2, Hprime. Qed.

(** Step 2.3 on a row that is zero left of [col] and nonzero at [col]. *)
Lemma normalize_facts (r : VectorType) (col : nat) :
  length r = S d1 -> (col < d1)%nat ->
  (forall j, (j < col)%nat -> nth j r 0 = 0) ->
  (forall j, (j < d1)%nat -> 0 <= nth j r 0 < q) ->
  nth col r 0 <> 0 ->
  let piv := normalize_row r col (mod_inverse (nth col r 0) q) q in
  length piv = S d1 /\
  (forall j, (j < col)%nat -> nth j piv 0 = 0) /\
  nth col piv 0 = 1 /\
  (forall j, (j < d1)%nat -> 0 <= nth j piv 0 < q) /\
  (forall e, sat q d1 e piv <-> sat q d1 e r).
Proof.
  intros Hlen Hcol Hz Hr Hnz piv.
  pose proof q_ge_2 as Hq2.
  set (p := nth col r 0) in *. set (inv := mod_inverse p q) in *.
  assert (Hp : 1 <= p < q) by (pose proof (Hr col Hcol); lia).
  assert (Hinv : (inv * p) mod q = 1) by (apply mod_inverse_mul; assumption).
  assert (Hnth : forall j, (j < S d1)%nat -> nth j piv 0
            = if (j <? col)%nat then nth j r 0 else mul_mod (nth j r 0) inv q).
  { intros j Hj. apply nth_normalize_row. lia. }
  split; [unfold piv; rewrite length_normalize_row; exact Hlen|].
  split; [intros j Hj; rewrite Hnth by lia;
          destruct (Nat.ltb_spec j col); [apply Hz; lia|lia]|].
  split.
  { rewrite Hnth by lia. destruct (Nat.ltb_spec col col); [lia|].
    unfold mul_mod. fold p. rewrite Z.mul_comm. exact Hinv. }
  split.
  { intros j Hj. rewrite Hnth by lia. destruct (Nat.ltb_spec j col).
    - apply Hr. lia.
    - unfold mul_mod. apply Z.mod_pos_bound. lia. }
  intros e. apply (sat_scale q d1 e piv r p inv).
  - assert (H1 : (q | (p * inv) mod q - p * inv)) by (apply divide_mod_sub; lia).
    rewrite Z.mul_comm in Hinv. rewrite Hinv in H1.
    eapply divide_comb with (c := -1) (d := 0); [exact H1 | exact H1 | ring].
  - intros j Hj. rewrite Hnth by lia. destruct (Nat.ltb_spec j col).
    + rewrite Hz by assumption. exists 0. ring.
    + unfold mul_mod. rewrite (Z.mul_comm inv).
      apply divide_mod_sub. lia.
Qed.

(** Step 2.4 on one row below the pivot row. *)
Lemma elim_op_facts (piv : VectorType) (col : nat) (t0 : nat) (r0 : VectorType) :
  (col < d1)%nat ->
  length piv = S d1 -> (forall j, (j < col)%nat -> nth j piv 0 = 0) ->
  nth col piv 0 = 1 ->
  length r0 = S d1 -> (forall j, (j < col)%nat -> nth j r0 0 = 0) ->
  (forall j, (j < d1)%nat -> 0 <= nth j r0 0 < q) ->
  let tr := elim_op piv col q (t0, r0) in
  fst tr = t0 /\ length (snd tr) = S d1 /\
  (forall j, (j <= col)%nat -> nth j (snd tr) 0 = 0) /\
  (forall j, (j < d1)%nat -> 0 <= nth j (snd tr) 0 < q) /\
  (forall e, sat q d1 e piv -> (sat q d1 e (snd tr) <-> sat q d1 e r0)).
Proof.
  intros Hcol Hpl Hp0 Hp1 Hl Hz Hr tr.
  pose proof q_ge_2 as Hq2.
  unfold tr, elim_op. set (f := nth col r0 0).
  destruct (Z.eqb_spec f 0) as [Hf|Hf]; simpl.
  - split; [reflexivity|]. split; [exact Hl|]. split.
    + intros j Hj. destruct (Nat.eq_dec j col) as [->|Hne]; [exact Hf|].
      apply Hz. lia.
    + split; [exact Hr|]. intros e _. reflexivity.
  - assert (Hnth : forall j, (j < S d1)%nat -> nth j (eliminate_row r0 piv col f q) 0
       = if (j <? col)%nat then nth j r0 0
         else sub_mod (nth j r0 0) (mul_mod f (nth j piv 0) q) q).
    { intros j Hj. apply nth_eliminate_row. lia. }
    split; [reflexivity|].
    split; [rewrite length_eliminate_row; exact Hl|].
    split.
    { intros j Hj. rewrite Hnth by lia. destruct (Nat.ltb_spec j col).
      - apply Hz. assumption.
      - assert (j = col) by lia. subst j. rewrite Hp1.
        fold f. pose proof (Hr col Hcol) as Hfr. fold f in Hfr.
        unfold sub_mod, mul_mod. rewrite Z.mul_1_r, (Z.mod_small f) by lia.
        replace (f + (q - f)) with q by ring. apply Z.mod_same. lia. }
    split.
    { intros j Hj. rewrite Hnth by lia. destruct (Nat.ltb_spec j col).
      - apply Hr. assumption.
      - unfold sub_mod. apply Z.mod_pos_bound. lia. }
    intros e He. apply (sat_elim q d1 e _ r0 piv f); [|exact He].
    intros j Hj. rewrite Hnth by lia. destruct (Nat.ltb_spec j col).
    + rewrite Hz, Hp0 by assumption. exists 0. ring.
    + unfold sub_mod, mul_mod.
      set (X := nth j r0 0 + (q - (f * nth j piv 0) mod q)).
      assert (H1 : (q | X mod q - X)) by (apply divide_mod_sub; lia).
      assert (H2 : (q | (f * nth j piv 0) mod q - f * nth j piv 0))
        by (apply divide_mod_sub; lia).
      assert (H3 : (q | q)) by apply Z.divide_refl.
      assert (H4 : (q | X mod q - X + q)) by (apply Z.divide_add_r; assumption).
      eapply divide_comb with (c := 1) (d := -1); [exact H4 | exact H2 |].
      unfold X. ring.
Qed.

End Step.

(** *** The forward elimination invariant *)

(** The normalised pivot row of step 2.3, for a pivot found in row [b]. *)
Definition npiv (A : list trow) (b col : nat) (q : Z) : VectorType :=
  normalize_row (row_at A b) col (mod_inverse (nth col (row_at A b) 0) q) q.

Lemma forward_step_some_rows (A : list trow) (m col pr b : nat) (q : Z) :
  find_pivot A col pr (m - pr) = Some b -> length A = m -> (pr < m)%nat ->
  snd (forward_step A m col pr q) = S pr /\
  length (fst (forward_step A m col pr q)) = m /\
  (forall k, (k < pr)%nat -> nth k (fst (forward_step A m col pr q)) dflt = nth k A dflt) /\
  nth pr (fst (forward_step A m col pr q)) dflt = (tag_at A b, npiv A b col q) /\
  (forall k, (pr < k < m)%nat ->
     nth k (fst (forward_step A m col pr q)) dflt
     = elim_op (npiv A b col q) col q (nth (if Nat.eqb k b then pr else k) A dflt)).
Proof.
  intros Hfp Hl Hpr.
  destruct (find_pivot_some _ _ _ _ _ Hfp) as [Hb _].
  unfold forward_step. rewrite Hfp. cbn [fst snd].
  assert (Hsw : nth pr (swap_rows A pr b) dflt = nth b A dflt).
  { rewrite nth_swap_rows by lia. rewrite Nat.eqb_refl. reflexivity. }
  rewrite Hsw. fold (row_at A b). fold (tag_at A b). fold (npiv A b col q).
  split; [reflexivity|].
  split; [rewrite length_eliminate_below;
          rewrite length_set_nth, length_swap_rows; lia|].
  split; [|split]; [intros k Hk|..|intros k Hk];
    rewrite nth_eliminate_below by (rewrite length_set_nth, length_swap_rows; lia);
    rewrite ?nth_set_nth by (rewrite length_swap_rows; lia).
  - destruct (Nat.leb_spec k pr); [|lia]. destruct (Nat.eqb_spec k pr); [lia|].
    rewrite nth_swap_rows by lia.
    destruct (Nat.eqb_spec k pr); [lia|]. destruct (Nat.eqb_spec k b); [lia|].
    reflexivity.
  - rewrite Nat.leb_refl, Nat.eqb_refl. reflexivity.
  - destruct (Nat.leb_spec k pr); [lia|]. destruct (Nat.eqb_spec k pr); [lia|].
    rewrite nth_swap_rows by lia.
    destruct (Nat.eqb_spec k pr); [lia|]. destruct (Nat.eqb k b); reflexivity.
Qed.

Section Forward.
Variables (q : Z) (m d1 : nat) (O : nat -> VectorType).
Hypothesis Hprime : Z.prime q.
Hypothesis Hq64 : q < 2 ^ 64.

(** After the [col] loop has run up to column [col] with [pr] pivots:
    rows have [d1 + 1] entries, coefficients are reduced, the rows from
    [pr] on are zero left of [col], the first [pr] rows are in echelon
    form with a leading [1], and once the pivot rows hold, a row holds
    iff the original equation it descends from holds. *)
Record finv (A : list trow) (pr col : nat) : Prop := {
  fi_len : length A = m;
  fi_rows : forall k, (k < m)%nat -> length (row_at A k) = S d1;
  fi_range : forall k j, (k < m)%nat -> (j < d1)%nat -> 0 <= ent A k j < q;
  fi_tags : forall k, (k < m)%nat -> (tag_at A k < m)%nat;
  fi_bounds : (pr <= col)%nat /\ (pr <= m)%nat;
  fi_zero : forall k j, (pr <= k < m)%nat -> (j < col)%nat -> ent A k j = 0;
  fi_ech : forall k, (k < pr)%nat -> exists c, (c < col)%nat /\ ent A k c = 1 /\
      (forall j, (j < c)%nat -> ent A k j = 0) /\
      (forall k' j, (k < k' < m)%nat -> (j <= c)%nat -> ent A k' j = 0);
  fi_sat : forall e, (forall k, (k < pr)%nat -> sat q d1 e (row_at A k)) ->
      forall k, (k < m)%nat ->
      (sat q d1 e (row_at A k) <-> sat q d1 e (O (tag_at A k)))
}.

Lemma finv_step (A : list trow) (pr col : nat) :
  finv A pr col -> (pr < m)%nat -> (col < d1)%nat ->
  finv (fst (forward_step A m col pr q)) (snd (forward_step A m col pr q)) (S col).
Proof.
  intros I Hpr Hcol. pose proof (q_ge_2 q Hprime) as Hq2.
  destruct I as [Hlen Hrows Hrange Htags [Hpc Hpm] Hzero Hech Hsat].
  destruct (find_pivot A col pr (m - pr)) as [b|] eqn:Hfp.
  2: {
    pose proof (find_pivot_none _ _ _ _ Hfp) as Hnone.
    unfold forward_step. rewrite Hfp. cbn [fst snd].
    constructor; try assumption.
    - lia.
    - intros k j Hk Hj. destruct (Nat.eq_dec j col) as [->|Hne].
      + apply Hnone. lia.
      + apply Hzero; lia.
    - intros k Hk. destruct (Hech k Hk) as (c & Hc & R). exists c. split; [lia|exact R]. }
  destruct (find_pivot_some _ _ _ _ _ Hfp) as [Hb Hbnz].
  destruct (forward_step_some_rows A m col pr b q Hfp Hlen Hpr)
    as (Hsnd & Hlen3 & Rlt & Req & Rgt).
  rewrite Hsnd.
  set (A3 := fst (forward_step A m col pr q)) in *.
  set (P := npiv A b col q) in *.
  assert (NF : length P = S d1 /\
    (forall j, (j < col)%nat -> nth j P 0 = 0) /\ nth col P 0 = 1 /\
    (forall j, (j < d1)%nat -> 0 <= nth j P 0 < q) /\
    (forall e, sat q d1 e P <-> sat q d1 e (row_at A b))).
  { exact (normalize_facts q d1 Hprime Hq64 (row_at A b) col (Hrows b ltac:(lia))
      Hcol (fun j Hj => Hzero b j ltac:(lia) Hj)
      (fun j Hj => Hrange b j ltac:(lia) Hj) Hbnz). }
  destruct NF as (HPl & HP0 & HP1 & HPr & HPs).
  assert (EF : forall k0, (pr <= k0 < m)%nat ->
    fst (elim_op P col q (nth k0 A dflt)) = tag_at A k0 /\
    length (snd (elim_op P col q (nth k0 A dflt))) = S d1 /\
    (forall j, (j <= col)%nat -> nth j (snd (elim_op P col q (nth k0 A dflt))) 0 = 0) /\
    (forall j, (j < d1)%nat -> 0 <= nth j (snd (elim_op P col q (nth k0 A dflt))) 0 < q) /\
    (forall e, sat q d1 e P ->
       (sat q d1 e (snd (elim_op P col q (nth k0 A dflt))) <-> sat q d1 e (row_at A k0)))).
  { intros k0 Hk0. rewrite (surjective_pairing (nth k0 A dflt)).
    exact (elim_op_facts q d1 Hprime P col (tag_at A k0) (row_at A k0) Hcol
      HPl HP0 HP1 (Hrows k0 ltac:(lia)) (fun j Hj => Hzero k0 j ltac:(lia) Hj)
      (fun j Hj => Hrange k0 j ltac:(lia) Hj)). }
  set (sw := fun k => if Nat.eqb k b then pr else k).
  assert (Hsw : forall k, (pr < k < m)%nat -> (pr <= sw k < m)%nat).
  { intros k Hk. unfold sw. destruct (Nat.eqb_spec k b); lia. }
  assert (Rgt' : forall k, (pr < k < m)%nat ->
            nth k A3 dflt = elim_op P col q (nth (sw k) A dflt)) by exact Rgt.
  clear Rgt.
  assert (Row_lt : forall k, (k < pr)%nat -> row_at A3 k = row_at A k)
    by (intros k Hk; unfold row_at; rewrite Rlt by exact Hk; reflexivity).
  assert (Row_eq : row_at A3 pr = P) by (unfold row_at; rewrite Req; reflexivity).
  assert (Row_gt : forall k, (pr < k < m)%nat ->
            row_at A3 k = snd (elim_op P col q (nth (sw k) A dflt)))
    by (intros k Hk; unfold row_at; rewrite Rgt' by exact Hk; reflexivity).
  assert (Tag_lt : forall k, (k < pr)%nat -> tag_at A3 k = tag_at A k)
    by (intros k Hk; unfold tag_at; rewrite Rlt by exact Hk; reflexivity).
  assert (Tag_eq : tag_at A3 pr = tag_at A b) by (unfold tag_at; rewrite Req; reflexivity).
  assert (Tag_gt : forall k, (pr < k < m)%nat -> tag_at A3 k = tag_at A (sw k)).
  { intros k Hk. unfold tag_at at 1. rewrite Rgt' by exact Hk.
    apply (EF (sw k) (Hsw k Hk)). }
  constructor.
  - exact Hlen3.
  - intros k Hk. destruct (lt_eq_lt_dec k pr) as [[Hlt| ->]|Hgt].
    + rewrite Row_lt by exact Hlt. apply Hrows. lia.
    + rewrite Row_eq. exact HPl.
    + rewrite Row_gt by lia. apply (EF (sw k) (Hsw k ltac:(lia))).
  - intros k j Hk Hj. unfold ent. destruct (lt_eq_lt_dec k pr) as [[Hlt| ->]|Hgt].
    + rewrite Row_lt by exact Hlt. apply Hrange; lia.
    + rewrite Row_eq. apply HPr. exact Hj.
    + rewrite Row_gt by lia. apply (EF (sw k) (Hsw k ltac:(lia))). exact Hj.
  - intros k Hk. destruct (lt_eq_lt_dec k pr) as [[Hlt| ->]|Hgt].
    + rewrite Tag_lt by exact Hlt. apply Htags. lia.
    + rewrite Tag_eq. apply Htags. lia.
    + rewrite Tag_gt by lia. apply Htags. pose proof (Hsw k ltac:(lia)). lia.
  - lia.
  - intros k j Hk Hj. unfold ent. rewrite Row_gt by lia.
    apply (EF (sw k) (Hsw k ltac:(lia))). lia.
  - intros k Hk. destruct (lt_eq_lt_dec k pr) as [[Hlt| ->]|Hgt]; [|exists col|lia].
    + destruct (Hech k Hlt) as (c & Hc & Hc1 & Hc0 & Hbel).
      exists c. unfold ent in *. rewrite Row_lt by exact Hlt.
      split; [lia|]. split; [exact Hc1|]. split; [exact Hc0|].
      intros k' j Hk' Hj. destruct (lt_eq_lt_dec k' pr) as [[Hlt'| ->]|Hgt'].
      * rewrite Row_lt by exact Hlt'. apply Hbel; lia.
      * rewrite Row_eq. apply HP0. lia.
      * rewrite Row_gt by lia. apply (EF (sw k') (Hsw k' ltac:(lia))). lia.
    + unfold ent. rewrite Row_eq. split; [lia|]. split; [exact HP1|].
      split; [exact HP0|].
      intros k' j Hk' Hj. rewrite Row_gt by lia.
      apply (EF (sw k') (Hsw k' ltac:(lia))). exact Hj.
  - intros e He.
    assert (Hold : forall k, (k < pr)%nat -> sat q d1 e (row_at A k)).
    { intros k Hk. rewrite <- Row_lt by exact Hk. apply He. lia. }
    assert (HeP : sat q d1 e P) by (rewrite <- Row_eq; apply He; lia).
    specialize (Hsat e Hold).
    intros k Hk. destruct (lt_eq_lt_dec k pr) as [[Hlt| ->]|Hgt].
    + rewrite Row_lt, Tag_lt by exact Hlt. apply Hsat. lia.
    + rewrite Row_eq, Tag_eq, HPs. apply Hsat. lia.
    + rewrite Row_gt, Tag_gt by lia.
      rewrite (proj2 (proj2 (proj2 (proj2 (EF (sw k) (Hsw k ltac:(lia)))))) e HeP).
      apply Hsat. pose proof (Hsw k ltac:(lia)). lia.
Qed.

(** The whole [col] loop preserves the invariant. *)
Lemma finv_forward (fuel : nat) :
  forall A col pr, finv A pr col -> (col + fuel = d1)%nat ->
  exists c, (c <= d1)%nat /\
    finv (fst (forward A m col pr fuel q)) (snd (forward A m col pr fuel q)) c.
Proof.
  induction fuel as [|f IH]; intros A col pr I Hc; simpl.
  - exists col. split; [lia|exact I].
  - destruct (Nat.ltb_spec pr m) as [Hlt|Hge].
    + pose proof (finv_step A pr col I Hlt ltac:(lia)) as I'.
      destruct (forward_step A m col pr q) as [A' pr'] eqn:Hs.
      apply (IH A' (S col) pr'); [exact I'|lia].
    + exists col. split; [lia|exact I].
Qed.

End Forward.

(** *** Back substitution *)

Lemma residual_fold (q : Z) (r res : VectorType) (l : list nat) (s : Z) :
  q <> 0 ->
  (q | fold_left (fun sum j => sub_mod sum (mul_mod (nth j r 0) (nth j res 0) q) q) l s
       - (s - sumZ (map (fun j => nth j r 0 * nth j res 0) l))).
Proof.
  intros Hq. revert s. induction l as [|j l IH]; intros s; simpl.
  - exists 0. ring.
  - set (x := nth j r 0 * nth j res 0) in *.
    set (s' := sub_mod s (mul_mod (nth j r 0) (nth j res 0) q) q).
    assert (H1 : (q | s' - (s - x))).
    { unfold s', sub_mod, mul_mod. fold x.
      assert (Ha : (q | (s + (q - x mod q)) mod q - (s + (q - x mod q))))
        by (apply divide_mod_sub; exact Hq).
      assert (Hb : (q | x mod q - x)) by (apply divide_mod_sub; exact Hq).
      assert (Hc : (q | (s + (q - x mod q)) mod q - (s + (q - x mod q)) + q))
        by (apply Z.divide_add_r; [exact Ha | apply Z.divide_refl]).
      eapply divide_comb with (c := 1) (d := -1); [exact Hc | exact Hb | ring]. }
    eapply divide_comb with (c := 1) (d := 1); [exact (IH s') | exact H1 | ring].
Qed.

Lemma residual_cong (q : Z) (d1 : nat) (r res : VectorType) (lc : nat) :
  q <> 0 ->
  (q | residual r res lc d1 q
       - (nth d1 r 0 - sumZ (map (fun j => nth j r 0 * nth j res 0)
                                 (seq (S lc) (d1 - S lc))))).
Proof. intros Hq. apply residual_fold. exact Hq. Qed.

Lemma rdot_set_nth_zero (d1 : nat) (r res : VectorType) (c : nat) (v : Z) :
  (c < length res)%nat -> nth c r 0 = 0 ->
  rdot d1 r (set_nth c v res) = rdot d1 r res.
Proof.
  intros Hc Hr. unfold rdot. f_equal. apply map_ext. intros j.
  rewrite nth_set_nth by exact Hc.
  destruct (Nat.eqb_spec j c) as [->|_]; [rewrite Hr; ring|reflexivity].
Qed.

Lemma rdot_set_nth_lead (d1 : nat) (r res : VectorType) (c : nat) (v : Z) :
  (c < d1)%nat -> (c < length res)%nat ->
  (forall j, (j < c)%nat -> nth j r 0 = 0) -> nth c r 0 = 1 ->
  rdot d1 r (set_nth c v res)
  = v + sumZ (map (fun j => nth j r 0 * nth j res 0) (seq (S c) (d1 - S c))).
Proof.
  intros Hcd Hc H0 H1. unfold rdot.
  replace d1 with (c + S (d1 - S c))%nat at 1 by lia.
  rewrite seq_app. cbn [seq]. replace (0 + c)%nat with c by lia.
  assert (E : map (fun j => nth j r 0 * nth j (set_nth c v res) 0) (seq (S c) (d1 - S c))
            = map (fun j => nth j r 0 * nth j res 0) (seq (S c) (d1 - S c))).
  { apply map_ext_in. intros j Hj.
    apply in_seq in Hj. rewrite nth_set_nth by exact Hc.
    destruct (Nat.eqb_spec j c); [lia|reflexivity]. }
  rewrite map_app, sumZ_app, map_cons.
  change (sumZ (?x :: ?l)) with (x + sumZ l).
  rewrite E, (sumZ_zero _ (seq 0 c)).
  2: { intros j Hj. apply in_seq_lt in Hj. rewrite H0 by lia. ring. }
  rewrite nth_set_nth by exact Hc. rewrite Nat.eqb_refl, H1. ring.
Qed.

Section Back.
Variables (q : Z) (d1 : nat) (R : MatrixType) (P : nat).
Hypothesis Hprime : Z.prime q.
Hypothesis Hq64 : q < 2 ^ 64.
(** The first [P] rows of the reduced system are in echelon form with a
    leading [1] at a column below [d1]. *)
Hypothesis Hech : forall k, (k < P)%nat -> exists c, (c < d1)%nat /\
  nth c (nth k R []) 0 = 1 /\
  (forall j, (j < c)%nat -> nth j (nth k R []) 0 = 0) /\
  (forall k', (k < k' < P)%nat -> nth c (nth k' R []) 0 = 0).

(** [res] has [d1] entries and satisfies the rows [n .. P-1]. *)
Definition good (n : nat) (res : VectorType) : Prop :=
  length res = d1 /\ forall k, (n <= k < P)%nat -> sat q d1 res (nth k R []).

Lemma back_step_good (i : nat) (res : VectorType) :
  (i < P)%nat -> good (S i) res -> good i (back_step R d1 q res i).
Proof.
  intros Hi [Hlen Hsat]. pose proof (q_ge_2 q Hprime) as Hq2.
  destruct (Hech i Hi) as (c & Hc & H1 & H0 & Hbel).
  unfold back_step.
  rewrite (find_leading_first (nth i R []) 0 d1 c) by
    (try lia; try (rewrite H1; discriminate); intros j Hj; apply H0; lia).
  rewrite H1. destruct (Z.eqb_spec 1 0) as [|_]; [lia|].
  set (s := residual (nth i R []) res c d1 q).
  set (inv := mod_inverse 1 q).
  set (v := mul_mod s inv q).
  assert (Hinv : (inv * 1) mod q = 1)
    by (apply mod_inverse_mul; [exact Hprime | exact Hq64 | lia]).
  assert (Hv : (q | v - s)).
  { assert (Ha : (q | (s * inv) mod q - s * inv)) by (apply divide_mod_sub; lia).
    assert (Hb : (q | (inv * 1) mod q - inv * 1)) by (apply divide_mod_sub; lia).
    rewrite Hinv in Hb. unfold v, mul_mod.
    eapply divide_comb with (c := 1) (d := - s); [exact Ha | exact Hb | ring]. }
  split; [rewrite length_set_nth; exact Hlen|].
  intros k Hk. destruct (Nat.eq_dec k i) as [->|Hne].
  - unfold sat, resid. rewrite rdot_set_nth_lead by (try lia; assumption).
    pose proof (residual_cong q d1 (nth i R []) res c ltac:(lia)) as Hs. fold s in Hs.
    eapply divide_comb with (c := 1) (d := 1); [exact Hv | exact Hs | ring].
  - unfold sat, resid. rewrite rdot_set_nth_zero by (try lia; apply Hbel; lia).
    apply Hsat. lia.
Qed.

Lemma back_subst_good (n : nat) :
  forall res, (n <= P)%nat -> good n res -> good 0 (back_subst R d1 q n res).
Proof.
  induction n as [|n IH]; intros res Hn Hg; simpl; [exact Hg|].
  apply IH; [lia|]. apply back_step_good; [lia|exact Hg].
Qed.

End Back.

(** *** The augmented matrix *)

Lemma nth_augment (M : MatrixType) (y : VectorType) (m d1 k : nat) :
  (k < m)%nat ->
  nth k (augment M y m d1) dflt
  = (k, map (fun j => nth j (nth k M []) 0) (seq 0 d1) ++ [nth k y 0]).
Proof. intros Hk. unfold augment. rewrite nth_map_seq by exact Hk. reflexivity. Qed.

Lemma nth_map_snd (A : list trow) (k : nat) : nth k (map snd A) [] = row_at A k.
Proof. unfold row_at. change (@nil Z) with (snd dflt). apply map_nth. Qed.

Lemma coeff_range (M : MatrixType) (q : Z) :
  0 < q -> Forall (Forall (fun a => 0 <= a < q)) M ->
  forall i j, 0 <= nth j (nth i M []) 0 < q.
Proof.
  intros Hq HM i j.
  destruct (Nat.lt_ge_cases i (length M)) as [Hi|Hi];
    [|assert (E : nth i M [] = []) by (apply nth_overflow; exact Hi);
      rewrite E; destruct j; simpl; lia].
  assert (Hr : Forall (fun a => 0 <= a < q) (nth i M []))
    by (rewrite Forall_forall in HM; apply HM, nth_In, Hi).
  destruct (Nat.lt_ge_cases j (length (nth i M []))) as [Hj|Hj];
    [|assert (E : nth j (nth i M []) 0 = 0) by (apply nth_overflow; exact Hj);
      rewrite E; lia].
  rewrite Forall_forall in Hr. apply Hr, nth_In, Hj.
Qed.

(** The equation of row [k] of the augmented matrix is the [k]-th
    equation of the system. *)
Lemma sat_augment (M : MatrixType) (y : VectorType) (q : Z) (m d1 k : nat)
  (e : VectorType) :
  (k < m)%nat -> length e = d1 ->
  (sat q d1 e (row_at (augment M y m d1) k)
   <-> (q | row_dot (nth k M []) e - nth k y 0)).
Proof.
  intros Hk He. unfold sat, resid, rdot, row_at, row_dot.
  rewrite nth_augment by exact Hk. cbn [snd].
  rewrite app_nth2 by (rewrite length_map, length_seq; lia).
  rewrite length_map, length_seq, Nat.sub_diag. cbn [nth].
  rewrite He.
  replace (map (fun j => nth j (map (fun j0 => nth j0 (nth k M []) 0) (seq 0 d1)
                                ++ [nth k y 0]) 0 * nth j e 0) (seq 0 d1))
    with (map (fun j => nth j (nth k M []) 0 * nth j e 0) (seq 0 d1));
    [reflexivity|].
  apply map_ext_in. intros j Hj. apply in_seq_lt in Hj.
  rewrite app_nth1 by (rewrite length_map, length_seq; lia).
  rewrite nth_map_seq by lia. reflexivity.
Qed.

Lemma finv_init (M : MatrixType) (y : VectorType) (q : Z) (m d1 : nat) :
  2 <= q -> Forall (Forall (fun a => 0 <= a < q)) M ->
  finv q m d1 (row_at (augment M y m d1)) (augment M y m d1) 0 0.
Proof.
  intros Hq HM.
  assert (Hrow : forall k, (k < m)%nat -> row_at (augment M y m d1) k
            = map (fun j => nth j (nth k M []) 0) (seq 0 d1) ++ [nth k y 0])
    by (intros k Hk; unfold row_at; rewrite nth_augment by exact Hk; reflexivity).
  assert (Htag : forall k, (k < m)%nat -> tag_at (augment M y m d1) k = k)
    by (intros k Hk; unfold tag_at; rewrite nth_augment by exact Hk; reflexivity).
  constructor.
  - unfold augment. rewrite length_map, length_seq. reflexivity.
  - intros k Hk. rewrite Hrow by exact Hk.
    rewrite length_app, length_map, length_seq. simpl. lia.
  - intros k j Hk Hj. unfold ent. rewrite Hrow by exact Hk.
    rewrite app_nth1 by (rewrite length_map, length_seq; lia).
    rewrite nth_map_seq by exact Hj. apply coeff_range; [lia|exact HM].
  - intros k Hk. rewrite Htag; assumption.
  - lia.
  - intros k j _ Hj. lia.
  - intros k Hk. lia.
  - intros e _ k Hk. rewrite Htag by exact Hk. reflexivity.
Qed.

End GaussCorrect.

Section GaussClaims.
Import Utils Matrix GaussCorrect.

(** Claim C1 (amended): for every prime [q < 2^64] and every coefficient
    matrix [M] whose coefficients all lie in [[0, q)], and every target
    vector [y], the vector returned by [gaussian_elimination M y q]
    satisfies every equation whose row received a pivot during the forward
    elimination: the dot product of the original coefficient row with the
    result is congruent to the original target value modulo [q]. *)
Theorem gaussian_elimination_pivoted_rows (M : MatrixType) (y : VectorType) (q : Z) :
  Z.prime q -> q < 2 ^ 64 -> Forall (Forall (fun a => 0 <= a < q)) M ->
  forall i, In i (pivoted_rows M y q) ->
  (row_dot (nth i M []) (gaussian_elimination M y q) - nth i y 0) mod q = 0.
Proof.
  intros Hp H64 HM i Hi. pose proof (q_ge_2 q Hp) as Hq2.
  unfold pivoted_rows in Hi. unfold gaussian_elimination.
  destruct M as [|r0 rest]; [contradiction|].
  set (M := r0 :: rest) in *.
  set (m := length M) in *. set (d1 := length r0) in *.
  pose proof (finv_forward q m d1 (row_at (augment M y m d1)) Hp H64 d1
                (augment M y m d1) 0 0 (finv_init M y q m d1 Hq2 HM) eq_refl)
    as (c & Hc & I).
  revert Hi I.
  destruct (forward (augment M y m d1) m 0 0 d1 q) as [A P] eqn:Hf.
  cbn [fst snd]. intros Hi I.
  destruct I as [Hlen Hrows Hrange Htags [Hpc Hpm] Hzero Hech Hsat].
  replace (Nat.min P d1) with P by lia.
  set (e := back_subst (map snd A) d1 q P (repeat 0 d1)).
  assert (Hg : good q d1 (map snd A) P 0 e).
  { apply back_subst_good; [exact Hp | exact H64 | | lia |].
    - intros k Hk. destruct (Hech k Hk) as (c' & Hc' & H1 & H0 & Hbel).
      exists c'. rewrite !nth_map_snd. split; [lia|].
      split; [exact H1|]. split; [exact H0|].
      intros k' Hk'. rewrite nth_map_snd. apply Hbel; lia.
    - split; [apply repeat_length|]. intros k Hk. lia. }
  destruct Hg as [He Hgood].
  assert (Hpiv : forall k, (k < P)%nat -> sat q d1 e (row_at A k))
    by (intros k Hk; rewrite <- nth_map_snd; apply Hgood; lia).
  apply in_map_iff in Hi. destruct Hi as (x & <- & Hx).
  apply (In_nth _ _ dflt) in Hx. destruct Hx as (k & Hk & <-).
  rewrite length_firstn in Hk. rewrite nth_firstn.
  destruct (Nat.ltb_spec k P); [|lia].
  fold (tag_at A k).
  assert (Hs : sat q d1 e (row_at (augment M y m d1) (tag_at A k)))
    by (apply (Hsat e Hpiv k); [lia | apply Hpiv; lia]).
  apply sat_augment in Hs; [|apply Htags; lia | exact He].
  apply Z.mod_divide; [lia | exact Hs].
Qed.

(** Witness of C1: the system [x0 + x1 = 2], [x1 = 1] over [Z/3]. *)
Lemma gaussian_elimination_pivoted_rows_witness :
  Z.prime 3 /\ In 0%nat (pivoted_rows [[1; 1]; [0; 1]] [2; 1] 3) /\
  (row_dot (nth 0 [[1; 1]; [0; 1]] [])
     (gaussian_elimination [[1; 1]; [0; 1]] [2; 1] 3) - nth 0 [2; 1] 0) mod 3 = 0.
Proof.
  split; [exact Z.prime_3|]. split; [vm_compute; left; reflexivity|].
  apply (gaussian_elimination_pivoted_rows [[1; 1]; [0; 1]] [2; 1] 3 Z.prime_3).
  - reflexivity.
  - repeat constructor; lia.
  - vm_compute. left. reflexivity.
Defined.

(** Counterexample to C1 as stated (any prime [q], unreduced coefficients):
    with [q = 3], the single equation [3 x0 + x1 = 1] receives a pivot on
    [x0] since [3 <> 0], but [mod_inverse 3 3 = 0] turns the row into zeros
    and the result [[0; 0]] gives [3*0 + 0 = 0], not [1], modulo [3],
    although [x = [0; 1]] solves the system. *)
Lemma gaussian_elimination_pivoted_rows_counterexample :
  Z.prime 3 /\ In 0%nat (pivoted_rows [[3; 1]] [1] 3) /\
  gaussian_elimination [[3; 1]] [1] 3 = [0; 0] /\
  (row_dot (nth 0 [[3; 1]] []) (gaussian_elimination [[3; 1]] [1] 3)
     - nth 0 [1] 0) mod 3 <> 0 /\
  (row_dot (nth 0 [[3; 1]] []) [0; 1] - nth 0 [1] 0) mod 3 = 0.
Proof.
  split; [exact Z.prime_3|]. split; [vm_compute; left; reflexivity|].
  split; [vm_compute; reflexivity|].
  split; [vm_compute; discriminate | vm_compute; reflexivity].
Qed.

End GaussClaims.

(** * Further properties of the sources *)

(** ** Bit operations of the hash *)

Module HashFacts.
Import Utils.

Lemma pow64 : 2 ^ 64 = 18446744073709551616.
Proof. reflexivity. Qed.

Lemma lxor_bound (n a b : Z) :
  0 <= n -> 0 <= a < 2 ^ n -> 0 <= b < 2 ^ n -> 0 <= Z.lxor a b < 2 ^ n.
Proof.
  intros Hn Ha Hb.
  assert (E : Z.lxor a b = Z.lxor a b mod 2 ^ n).
  { apply Z.bits_inj'. intros m Hm.
    destruct (Z.lt_ge_cases m n) as [Hlt|Hge].
    - rewrite Z.mod_pow2_bits_low by lia. reflexivity.
    - rewrite Z.mod_pow2_bits_high by lia. rewrite Z.lxor_spec.
      rewrite <- (Z.mod_small a (2 ^ n)), <- (Z.mod_small b (2 ^ n)) by lia.
      rewrite !Z.mod_pow2_bits_high by lia. reflexivity. }
  rewrite E. apply Z.mod_pos_bound. apply Z.pow_pos_nonneg; lia.
Qed.

Lemma shiftr33_bound (h : Z) : 0 <= h < 2 ^ 64 -> 0 <= Z.shiftr h 33 < 2 ^ 64.
Proof.
  intros Hh. rewrite Z.shiftr_div_pow2 by lia. rewrite pow64 in *. split.
  - apply Z.div_pos; [lia|]. apply Z.pow_pos_nonneg; lia.
  - apply Z.div_lt_upper_bound; [apply Z.pow_pos_nonneg; lia|].
    change (2 ^ 33) with 8589934592. lia.
Qed.

(** The step [h ^= h >> 33]. *)
Definition xs (h : Z) : Z := Z.lxor h (Z.shiftr h 33).

Lemma xs_bound (h : Z) : 0 <= h < 2 ^ 64 -> 0 <= xs h < 2 ^ 64.
Proof. intros Hh. apply lxor_bound; [lia|exact Hh|apply shiftr33_bound, Hh]. Qed.

Lemma xs_inv (h : Z) : 0 <= h < 2 ^ 64 -> xs (xs h) = h.
Proof.
  intros Hh. unfold xs.
  rewrite Z.shiftr_lxor, Z.shiftr_shiftr by lia.
  assert (E : Z.shiftr h (33 + 33) = 0).
  { rewrite Z.shiftr_div_pow2 by lia. apply Z.div_small.
    rewrite pow64 in Hh. change (2 ^ (33 + 33)) with 73786976294838206464. lia. }
  rewrite E, Z.lxor_0_r, Z.lxor_assoc, Z.lxor_nilpotent, Z.lxor_0_r.
  reflexivity.
Qed.

Lemma xs_inj (a b : Z) :
  0 <= a < 2 ^ 64 -> 0 <= b < 2 ^ 64 -> xs a = xs b -> a = b.
Proof.
  intros Ha Hb H. rewrite <- (xs_inv a Ha), <- (xs_inv b Hb), H. reflexivity.
Qed.

Lemma mul_prime_inj (a b : Z) :
  0 <= a < 2 ^ 64 -> 0 <= b < 2 ^ 64 -> u64 (a * PRIME) = u64 (b * PRIME) -> a = b.
Proof.
  intros Ha Hb H. unfold u64 in H.
  assert (Hinv : forall x, 0 <= x < 2 ^ 64 ->
            (x * PRIME) mod 2 ^ 64 * 17428512612931826493 mod 2 ^ 64 = x).
  { intros x Hx. rewrite Z.mul_mod_idemp_l by (rewrite pow64; lia).
    rewrite <- Z.mul_assoc, <- Z.mul_mod_idemp_r by (rewrite pow64; lia).
    change ((PRIME * 17428512612931826493) mod 2 ^ 64) with 1.
    rewrite Z.mul_1_r. apply Z.mod_small. exact Hx. }
  rewrite <- (Hinv a Ha), <- (Hinv b Hb), H. reflexivity.
Qed.

End HashFacts.

(** ** Modular arithmetic *)

Module ArithFacts.
Import Utils.

Lemma sub_mod_u128_unwrapped (a b q : Z) :
  sub_mod_u128 a b q = u128 (a + (q - b)) mod q.
Proof.
  unfold sub_mod_u128, u128. rewrite Z.add_mod_idemp_r by lia. reflexivity.
Qed.

End ArithFacts.

Section UtilsExtras.
Import Utils UtilsFacts HashFacts ArithFacts.

(** For a fixed 64-bit key, [hash_partition] never maps two distinct
    64-bit elements to the same 64-bit value: xor with the key, the two
    [h ^= h >> 33] steps and the multiplication by the odd [PRIME]
    modulo [2^64] are all invertible. *)
Theorem hash_partition_injective (k1 e1 e2 : Z) :
  0 <= k1 < 2 ^ 64 -> 0 <= e1 < 2 ^ 64 -> 0 <= e2 < 2 ^ 64 ->
  hash_partition k1 e1 = hash_partition k1 e2 -> e1 = e2.
Proof.
  intros Hk H1 H2 H. unfold hash_partition in H. fold (xs (Z.lxor k1 e1)) in H.
  fold (xs (Z.lxor k1 e2)) in H.
  assert (B1 : 0 <= Z.lxor k1 e1 < 2 ^ 64) by (apply lxor_bound; lia).
  assert (B2 : 0 <= Z.lxor k1 e2 < 2 ^ 64) by (apply lxor_bound; lia).
  assert (U : forall x, 0 <= u64 x < 2 ^ 64)
    by (intros x; apply Z.mod_pos_bound; rewrite pow64; lia).
  fold (xs (u64 (xs (Z.lxor k1 e1) * PRIME))) in H.
  fold (xs (u64 (xs (Z.lxor k1 e2) * PRIME))) in H.
  apply xs_inj in H; [|apply U|apply U].
  apply mul_prime_inj in H; [|apply xs_bound, B1|apply xs_bound, B2].
  apply xs_inj in H; [|exact B1|exact B2].
  rewrite <- (Z.lxor_0_l e1), <- (Z.lxor_0_l e2), <- (Z.lxor_nilpotent k1),
    !Z.lxor_assoc, H. reflexivity.
Qed.

Lemma hash_partition_injective_witness :
  hash_partition 7 1 <> hash_partition 7 2 /\
  (hash_partition 7 1 = hash_partition 7 1 -> 1 = 1).
Proof.
  split; [vm_compute; discriminate|].
  apply (hash_partition_injective 7 1 1); rewrite pow64; lia.
Defined.

(** [fast_pow(base, exp, q)] is [base^exp mod q] for every modulus
    [q >= 1], the branch [q == 1] (which returns [0]) included. *)
Theorem fast_pow_correct (base exp q : Z) :
  1 <= q -> 0 <= exp -> fast_pow base exp q = base ^ exp mod q.
Proof.
  intros Hq He. destruct (Z.eq_dec q 1) as [->|Hne].
  - rewrite Z.mod_1_r. reflexivity.
  - apply fast_pow_spec; lia.
Qed.

Lemma fast_pow_correct_witness :
  fast_pow 3 5 1 = 3 ^ 5 mod 1 /\ fast_pow 3 5 7 = 3 ^ 5 mod 7.
Proof. split; apply fast_pow_correct; lia. Defined.

(** For a prime [q < 2^64], [mod_inverse(a, q)] is the inverse of [a]
    modulo [q] for every [a] that is not a multiple of [q], also when
    [a >= q]: [fast_pow] reduces the base first. *)
Theorem mod_inverse_inverse_mod (a q : Z) :
  Z.prime q -> q < 2 ^ 64 -> a mod q <> 0 ->
  mul_mod (mod_inverse a q) a q = 1.
Proof.
  intros Hp Hq64 Ha. pose proof (Z.prime_ge_2 _ Hp) as Hq2.
  unfold mul_mod, mod_inverse.
  destruct (Z.eqb_spec a 0) as [->|_]; [rewrite Z.mod_0_l in Ha; lia|].
  unfold u64. rewrite (Z.mod_small (q - 2)) by lia.
  rewrite fast_pow_spec by lia.
  rewrite Z.mul_mod_idemp_l by lia.
  replace (a ^ (q - 2) * a) with (a ^ (q - 1)).
  - apply ZmodInv.Z.fermat_nz; assumption.
  - replace (q - 1) with (Z.succ (q - 2)) by lia.
    rewrite Z.pow_succ_r by lia. ring.
Qed.

Lemma mod_inverse_inverse_mod_witness :
  Z.prime 3 /\ mul_mod (mod_inverse 5 3) 5 3 = 1.
Proof.
  split; [exact Z.prime_3|].
  apply mod_inverse_inverse_mod; [exact Z.prime_3|reflexivity|discriminate].
Defined.

(** For a modulus [3 <= q < 2^64], [mod_inverse] of a nonzero multiple of
    [q] is [0], so [mul_mod(mod_inverse(a, q), a, q)] is [0], not [1]. *)
Theorem mod_inverse_multiple (a q : Z) :
  3 <= q < 2 ^ 64 -> a <> 0 -> a mod q = 0 ->
  mod_inverse a q = 0 /\ mul_mod (mod_inverse a q) a q = 0.
Proof.
  intros Hq Ha Hm.
  assert (E : mod_inverse a q = 0).
  { unfold mod_inverse. destruct (Z.eqb_spec a 0) as [|_]; [lia|].
    unfold u64. rewrite (Z.mod_small (q - 2)) by lia.
    rewrite fast_pow_spec by lia.
    rewrite <- Z.mod_pow_l by lia. rewrite Hm.
    rewrite Z.pow_0_l by lia. apply Z.mod_0_l. lia. }
  split; [exact E|]. unfold mul_mod. rewrite E. reflexivity.
Qed.

Lemma mod_inverse_multiple_witness :
  mod_inverse 6 3 = 0 /\ mul_mod (mod_inverse 6 3) 6 3 = 0.
Proof. apply mod_inverse_multiple; [split; [lia|reflexivity]|lia|reflexivity]. Defined.

(** [sub_mod(a, b, q)], computed in 128 bits, is [(a - b) mod q] whenever
    [b <= a + q] (in particular for [b <= q]). *)
Theorem sub_mod_u128_exact (a b q : Z) :
  0 <= a < 2 ^ 64 -> 0 <= b < 2 ^ 64 -> 0 < q < 2 ^ 64 -> b <= a + q ->
  sub_mod_u128 a b q = (a - b) mod q /\ sub_mod_u128 a b q = sub_mod a b q.
Proof.
  intros Ha Hb Hq Hle. rewrite sub_mod_u128_unwrapped. unfold u128.
  rewrite pow64 in *.
  rewrite (Z.mod_small (a + (q - b))) by (change (2 ^ 128) with
    340282366920938463463374607431768211456; lia).
  unfold sub_mod. split; [|reflexivity].
  replace (a + (q - b)) with (a - b + 1 * q) by ring.
  apply Z.mod_add. lia.
Qed.

Lemma sub_mod_u128_exact_witness :
  sub_mod_u128 2 5 4 = (2 - 5) mod 4 /\ sub_mod_u128 2 5 4 = sub_mod 2 5 4.
Proof. apply sub_mod_u128_exact; rewrite ?pow64; lia. Defined.

(** When [b > a + q], the 128-bit difference [q - b] wraps and
    [sub_mod(a, b, q)] is [(a - b + 2^128) mod q], which differs from
    [(a - b) mod q] unless [q] divides [2^128]. *)
Theorem sub_mod_u128_wrap (a b q : Z) :
  0 <= a < 2 ^ 64 -> 0 <= b < 2 ^ 64 -> 0 < q -> a + q < b ->
  sub_mod_u128 a b q = (a - b + 2 ^ 128) mod q.
Proof.
  intros Ha Hb Hq Hlt. rewrite sub_mod_u128_unwrapped. unfold u128.
  rewrite pow64 in *.
  replace ((a + (q - b)) mod 2 ^ 128) with (a + (q - b) + 2 ^ 128).
  - replace (a + (q - b) + 2 ^ 128) with (a - b + 2 ^ 128 + 1 * q) by ring.
    apply Z.mod_add. lia.
  - change (2 ^ 128) with 340282366920938463463374607431768211456.
    apply Z.mod_unique with (q := -1); lia.
Qed.

Lemma sub_mod_u128_wrap_witness :
  sub_mod_u128 0 5 3 = (0 - 5 + 2 ^ 128) mod 3 /\
  sub_mod_u128 0 5 3 = 2 /\ (0 - 5) mod 3 = 1.
Proof.
  split; [apply sub_mod_u128_wrap; rewrite ?pow64; lia|].
  split; vm_compute; reflexivity.
Defined.

End UtilsExtras.

(** ** Sums and matrix shapes *)

Module MatrixFacts.
Import Utils Matrix AggregateFacts.

(** An [r x c] matrix (every row of length [c]). *)
Definition rect (r c : nat) (X : MatrixType) : Prop :=
  length X = r /\ Forall (fun row => length row = c) X.

(** [sum_{l in L} A[i][l] * B[l][j]]. *)
Definition msum (A B : MatrixType) (L : list nat) (i j : nat) : Z :=
  sumZ (map (fun l => nth l (nth i A []) 0 * nth j (nth l B []) 0) L).

Lemma rect_nth (r c : nat) (X : MatrixType) (i : nat) :
  rect r c X -> (i < r)%nat -> length (nth i X []) = c.
Proof.
  intros [Hl Hf] Hi. rewrite Forall_forall in Hf. apply Hf, nth_In. lia.
Qed.

Lemma shaped_rect (r c : nat) (q : Z) (X : MatrixType) :
  shaped r c q X -> rect r c X.
Proof.
  intros [Hl Hf]. split; [exact Hl|]. eapply Forall_impl; [|exact Hf].
  intros row [H _]. exact H.
Qed.

Lemma rect_eta (r c : nat) (X : MatrixType) :
  rect r c X ->
  map (fun i => map (fun j => nth j (nth i X []) 0) (seq 0 c)) (seq 0 r) = X.
Proof.
  intros HX. apply nth_ext with (d := []) (d' := []).
  - rewrite length_map, length_seq. destruct HX as [Hl _]. symmetry. exact Hl.
  - intros i Hi. rewrite length_map, length_seq in Hi.
    rewrite nth_map_seq by exact Hi.
    apply nth_ext with (d := 0) (d' := 0).
    + rewrite length_map, length_seq. symmetry. exact (rect_nth r c X i HX Hi).
    + intros j Hj. rewrite length_map, length_seq in Hj.
      rewrite nth_map_seq by exact Hj. reflexivity.
Qed.

Lemma rect_map (r c : nat) (f : nat -> nat -> Z) :
  rect r c (map (fun i => map (fun j => f i j) (seq 0 c)) (seq 0 r)).
Proof.
  split; [rewrite length_map, length_seq; reflexivity|].
  apply Forall_forall. intros row Hrow. apply in_map_iff in Hrow.
  destruct Hrow as (i & <- & _). rewrite length_map, length_seq. reflexivity.
Qed.

Lemma nth_map_map (r c : nat) (f : nat -> nat -> Z) (i j : nat) :
  (i < r)%nat -> (j < c)%nat ->
  nth j (nth i (map (fun i => map (fun j => f i j) (seq 0 c)) (seq 0 r)) []) 0
  = f i j.
Proof. intros Hi Hj. rewrite !nth_map_seq by assumption. reflexivity. Qed.

Lemma nth_repeat_in {A : Type} (x d : A) (n i : nat) :
  (i < n)%nat -> nth i (repeat x n) d = x.
Proof.
  revert i. induction n as [|n IH]; intros [|i] Hi; simpl; try lia; auto.
  apply IH. lia.
Qed.

Lemma sumZ_cons (x : Z) (l : list Z) : sumZ (x :: l) = x + sumZ l.
Proof. reflexivity. Qed.

Lemma sumZ_add {A : Type} (f g : A -> Z) (L : list A) :
  sumZ (map (fun x => f x + g x) L) = sumZ (map f L) + sumZ (map g L).
Proof.
  induction L as [|x L IH]; [reflexivity|]. cbn [map]. rewrite !sumZ_cons, IH. ring.
Qed.

Lemma sumZ_mul_r {A : Type} (f : A -> Z) (c : Z) (L : list A) :
  sumZ (map f L) * c = sumZ (map (fun x => f x * c) L).
Proof.
  induction L as [|x L IH]; [reflexivity|]. cbn [map]. rewrite !sumZ_cons, <- IH. ring.
Qed.

Lemma sumZ_mul_l {A : Type} (f : A -> Z) (c : Z) (L : list A) :
  c * sumZ (map f L) = sumZ (map (fun x => c * f x) L).
Proof.
  induction L as [|x L IH]; [apply Z.mul_0_r|]. cbn [map]. rewrite !sumZ_cons, <- IH. ring.
Qed.

Lemma sumZ_nil_map {A : Type} (L : list A) : sumZ (map (fun _ => 0) L) = 0.
Proof. induction L as [|x L IH]; [reflexivity|]. cbn [map]. rewrite sumZ_cons, IH. ring. Qed.

Lemma sumZ_swap {A B : Type} (f : A -> B -> Z) (L1 : list A) (L2 : list B) :
  sumZ (map (fun t => sumZ (map (fun l => f l t) L1)) L2)
  = sumZ (map (fun l => sumZ (map (fun t => f l t) L2)) L1).
Proof.
  induction L2 as [|t L2 IH]; cbn [map].
  - rewrite sumZ_nil_map. reflexivity.
  - rewrite sumZ_cons, IH.
    rewrite <- (sumZ_add (fun l => f l t) (fun l => sumZ (map (fun t0 => f l t0) L2))).
    reflexivity.
Qed.

Lemma sum_mod_congr {A : Type} (q : Z) (f g : A -> Z) (L : list A) :
  q <> 0 -> (forall x, In x L -> f x mod q = g x mod q) ->
  sumZ (map f L) mod q = sumZ (map g L) mod q.
Proof.
  intros Hq. induction L as [|x L IH]; intros H; [reflexivity|].
  cbn [map]. rewrite !sumZ_cons.
  rewrite Z.add_mod, (H x (or_introl eq_refl)), IH by (auto with datatypes).
  rewrite <- Z.add_mod by exact Hq. reflexivity.
Qed.

(** The accumulation [sum = add_mod(sum, mul_mod(f l, g l, q), q)] is the
    exact sum of products, reduced once. *)
Lemma fold_add_mul (q : Z) (f g : nat -> Z) (L : list nat) (s : Z) :
  0 < q -> 0 <= s < q ->
  fold_left (fun sum l => add_mod sum (mul_mod (f l) (g l) q) q) L s
  = (s + sumZ (map (fun l => f l * g l) L)) mod q.
Proof.
  intros Hq. revert s. induction L as [|x L IH]; intros s Hs; simpl fold_left.
  - rewrite Z.add_0_r, Z.mod_small by exact Hs. reflexivity.
  - rewrite IH by (unfold add_mod; apply Z.mod_pos_bound; exact Hq).
    cbn [map]. rewrite sumZ_cons. unfold add_mod, mul_mod.
    rewrite Z.add_mod_idemp_l by lia.
    replace (s + (f x * g x) mod q + sumZ (map (fun l => f l * g l) L))
      with ((f x * g x) mod q + (s + sumZ (map (fun l => f l * g l) L))) by ring.
    rewrite Z.add_mod_idemp_l by lia. f_equal. ring.
Qed.

Lemma matrix_add_rect (r c : nat) (q : Z) (A B : MatrixType) :
  (1 <= r)%nat -> rect r c A ->
  matrix_add A B q =
  map (fun i => map (fun j => add_mod (nth j (nth i A []) 0)
                                       (nth j (nth i B []) 0) q)
                    (seq 0 c))
      (seq 0 r).
Proof.
  intros Hr HA. unfold matrix_add. rewrite (rect_nth r c A 0 HA) by lia.
  destruct HA as [Hl _]. rewrite Hl. reflexivity.
Qed.

Lemma matrix_sub_rect (r c : nat) (q : Z) (A B : MatrixType) :
  (1 <= r)%nat -> rect r c A ->
  matrix_sub A B q =
  map (fun i => map (fun j => sub_mod (nth j (nth i A []) 0)
                                       (nth j (nth i B []) 0) q)
                    (seq 0 c))
      (seq 0 r).
Proof.
  intros Hr HA. unfold matrix_sub. rewrite (rect_nth r c A 0 HA) by lia.
  destruct HA as [Hl _]. rewrite Hl. reflexivity.
Qed.

Lemma matrix_multiply_rect (n m k : nat) (q : Z) (A B : MatrixType) :
  0 < q -> (1 <= n)%nat -> (1 <= m)%nat -> rect n m A -> rect m k B ->
  matrix_multiply A B q =
  map (fun i => map (fun j => msum A B (seq 0 m) i j mod q) (seq 0 k)) (seq 0 n).
Proof.
  intros Hq Hn Hm HA HB. unfold matrix_multiply.
  rewrite (rect_nth n m A 0 HA), (rect_nth m k B 0 HB) by lia.
  destruct HA as [Hl _]. rewrite Hl.
  apply map_ext. intros i. apply map_ext. intros j. unfold mm_entry, msum.
  rewrite (fold_add_mul q (fun l => nth l (nth i A []) 0)
             (fun l => nth j (nth l B []) 0)) by lia.
  rewrite Z.add_0_l. reflexivity.
Qed.

Lemma vector_matrix_multiply_rect (m n : nat) (q : Z) (v : VectorType)
  (M : MatrixType) :
  0 < q -> (1 <= m)%nat -> rect m n M -> length v = m ->
  vector_matrix_multiply v M q =
  map (fun j => sumZ (map (fun i => nth i v 0 * nth j (nth i M []) 0) (seq 0 m)) mod q)
      (seq 0 n).
Proof.
  intros Hq Hm HM Hv. unfold vector_matrix_multiply.
  rewrite (rect_nth m n M 0 HM) by lia.
  destruct HM as [Hl _]. rewrite Hl, Hv, Nat.eqb_refl. cbn [negb].
  apply map_ext. intros j.
  rewrite (fold_add_mul q (fun i => nth i v 0) (fun i => nth j (nth i M []) 0)) by lia.
  rewrite Z.add_0_l. reflexivity.
Qed.

End MatrixFacts.

Section MatrixExtras.
Import Utils Matrix AggregateFacts MatrixFacts.

(** Unmasking: for [r >= 1] rows and [r x c] matrices [A] and [S] with
    entries in [[0, q)], [matrix_sub(matrix_add(A, S, q), S, q) = A]. *)
Theorem matrix_sub_add_cancel (r c : nat) (q : Z) (A S : MatrixType) :
  0 < q -> (1 <= r)%nat -> shaped r c q A -> shaped r c q S ->
  matrix_sub (matrix_add A S q) S q = A.
Proof.
  intros Hq Hr HA HS.
  pose proof (shaped_rect _ _ _ _ HA) as RA.
  rewrite (matrix_add_rect r c q A S Hr RA).
  rewrite (matrix_sub_rect r c q _ S Hr (rect_map r c _)).
  etransitivity; [|exact (rect_eta r c A RA)].
  apply map_ext_in. intros i Hi. apply in_seq_lt in Hi.
  apply map_ext_in. intros j Hj. apply in_seq_lt in Hj.
  rewrite nth_map_map by lia.
  destruct (shaped_nth r c q A i HA) as [_ Ha]; [lia|].
  destruct (shaped_nth r c q S i HS) as [_ Hs]; [lia|].
  specialize (Ha j ltac:(lia)). specialize (Hs j ltac:(lia)).
  unfold sub_mod, add_mod. rewrite Z.add_mod_idemp_l by lia.
  replace (nth j (nth i A []) 0 + nth j (nth i S []) 0 + (q - nth j (nth i S []) 0))
    with (nth j (nth i A []) 0 + 1 * q) by ring.
  rewrite Z.mod_add by lia. apply Z.mod_small. exact Ha.
Qed.

Lemma matrix_sub_add_cancel_witness :
  matrix_sub (matrix_add [[1; 2]] [[2; 2]] 3) [[2; 2]] 3 = [[1; 2]].
Proof.
  apply (matrix_sub_add_cancel 1 2 3); [lia|lia| |];
    (split; [reflexivity|repeat constructor; lia]).
Defined.

(** Masking back: for [r >= 1] rows and [r x c] matrices [A] and [S] with
    entries in [[0, q)], [matrix_add(matrix_sub(A, S, q), S, q) = A]. *)
Theorem matrix_add_sub_cancel (r c : nat) (q : Z) (A S : MatrixType) :
  0 < q -> (1 <= r)%nat -> shaped r c q A -> shaped r c q S ->
  matrix_add (matrix_sub A S q) S q = A.
Proof.
  intros Hq Hr HA HS.
  pose proof (shaped_rect _ _ _ _ HA) as RA.
  rewrite (matrix_sub_rect r c q A S Hr RA).
  rewrite (matrix_add_rect r c q _ S Hr (rect_map r c _)).
  etransitivity; [|exact (rect_eta r c A RA)].
  apply map_ext_in. intros i Hi. apply in_seq_lt in Hi.
  apply map_ext_in. intros j Hj. apply in_seq_lt in Hj.
  rewrite nth_map_map by lia.
  destruct (shaped_nth r c q A i HA) as [_ Ha]; [lia|].
  specialize (Ha j ltac:(lia)).
  unfold sub_mod, add_mod. rewrite Z.add_mod_idemp_l by lia.
  replace (nth j (nth i A []) 0 + (q - nth j (nth i S []) 0) + nth j (nth i S []) 0)
    with (nth j (nth i A []) 0 + 1 * q) by ring.
  rewrite Z.mod_add by lia. apply Z.mod_small. exact Ha.
Qed.

Lemma matrix_add_sub_cancel_witness :
  matrix_add (matrix_sub [[1; 2]] [[2; 2]] 3) [[2; 2]] 3 = [[1; 2]].
Proof.
  apply (matrix_add_sub_cancel 1 2 3); [lia|lia| |];
    (split; [reflexivity|repeat constructor; lia]).
Defined.

(** [zero_matrix(r, c)] is neutral for [matrix_add] on [r x c] matrices
    ([r >= 1]) with entries in [[0, q)]. *)
Theorem matrix_add_zero_r (r c : nat) (q : Z) (A : MatrixType) :
  0 < q -> (1 <= r)%nat -> shaped r c q A ->
  matrix_add A (zero_matrix r c) q = A.
Proof.
  intros Hq Hr HA. pose proof (shaped_rect _ _ _ _ HA) as RA.
  rewrite (matrix_add_rect r c q A _ Hr RA).
  etransitivity; [|exact (rect_eta r c A RA)].
  apply map_ext_in. intros i Hi. apply in_seq_lt in Hi.
  apply map_ext_in. intros j Hj. apply in_seq_lt in Hj.
  unfold zero_matrix. rewrite nth_repeat_in by lia.
  rewrite SparseFacts.nth_repeat_Z. unfold add_mod. rewrite Z.add_0_r.
  destruct (shaped_nth r c q A i HA) as [_ Ha]; [lia|].
  apply Z.mod_small, Ha. lia.
Qed.

Lemma matrix_add_zero_r_witness :
  matrix_add [[1; 2]; [0; 4]] (zero_matrix 2 2) 5 = [[1; 2]; [0; 4]].
Proof.
  apply (matrix_add_zero_r 2 2 5); [lia|lia|].
  split; [reflexivity|repeat constructor; lia].
Defined.

(** For an [n x m] matrix [A] and an [m x k] matrix [B] ([n, m >= 1]),
    [matrix_multiply(A, B, q)] is the [n x k] matrix whose entry [(i, j)]
    is the exact sum [sum_l A[i][l] * B[l][j]] reduced once modulo [q]:
    reducing after every product and every addition loses nothing. *)
Theorem matrix_multiply_sum (n m k : nat) (q : Z) (A B : MatrixType) :
  0 < q -> (1 <= n)%nat -> (1 <= m)%nat -> rect n m A -> rect m k B ->
  rect n k (matrix_multiply A B q) /\
  forall i j, (i < n)%nat -> (j < k)%nat ->
  nth j (nth i (matrix_multiply A B q) []) 0
  = sumZ (map (fun l => nth l (nth i A []) 0 * nth j (nth l B []) 0) (seq 0 m)) mod q.
Proof.
  intros Hq Hn Hm HA HB. rewrite (matrix_multiply_rect n m k q A B) by assumption.
  split; [apply rect_map|]. intros i j Hi Hj. rewrite nth_map_map by assumption.
  reflexivity.
Qed.

Lemma matrix_multiply_sum_witness :
  rect 1 1 (matrix_multiply [[2; 3]] [[4]; [5]] 7) /\
  nth 0 (nth 0 (matrix_multiply [[2; 3]] [[4]; [5]] 7) []) 0
  = sumZ (map (fun l => nth l (nth 0 [[2; 3]] []) 0 * nth 0 (nth l [[4]; [5]] []) 0)
              (seq 0 2)) mod 7.
Proof.
  destruct (matrix_multiply_sum 1 2 1 7 [[2; 3]] [[4]; [5]]) as [H1 H2];
    [lia|lia|lia| split; [reflexivity|repeat constructor] |
     split; [reflexivity|repeat constructor] |].
  split; [exact H1|]. apply H2; lia.
Defined.

(** [matrix_multiply] is associative modulo [q]: for [A] [n x m], [B]
    [m x k] and [C] [k x p] with [n, m, k >= 1],
    [(A B) C = A (B C)]. *)
Theorem matrix_multiply_assoc (n m k p : nat) (q : Z) (A B C : MatrixType) :
  0 < q -> (1 <= n)%nat -> (1 <= m)%nat -> (1 <= k)%nat ->
  rect n m A -> rect m k B -> rect k p C ->
  matrix_multiply (matrix_multiply A B q) C q
  = matrix_multiply A (matrix_multiply B C q) q.
Proof.
  intros Hq Hn Hm Hk HA HB HC.
  assert (RAB : rect n k (matrix_multiply A B q))
    by (rewrite (matrix_multiply_rect n m k) by assumption; apply rect_map).
  assert (RBC : rect m p (matrix_multiply B C q))
    by (rewrite (matrix_multiply_rect m k p) by assumption; apply rect_map).
  rewrite (matrix_multiply_rect n k p q (matrix_multiply A B q) C) by assumption.
  rewrite (matrix_multiply_rect n m p q A (matrix_multiply B C q)) by assumption.
  apply map_ext_in. intros i Hi. apply in_seq_lt in Hi.
  apply map_ext_in. intros j Hj. apply in_seq_lt in Hj.
  set (f := fun l t => nth l (nth i A []) 0 * nth t (nth l B []) 0 * nth j (nth t C []) 0).
  transitivity (sumZ (map (fun t => sumZ (map (fun l => f l t) (seq 0 m))) (seq 0 k)) mod q).
  - unfold msum. apply sum_mod_congr; [lia|]. intros t Ht. apply in_seq_lt in Ht.
    rewrite (matrix_multiply_rect n m k q A B) by assumption.
    rewrite nth_map_map by lia. unfold msum.
    rewrite Z.mul_mod_idemp_l by lia. f_equal.
    rewrite sumZ_mul_r. reflexivity.
  - rewrite sumZ_swap. symmetry.
    unfold msum. apply sum_mod_congr; [lia|]. intros l Hl. apply in_seq_lt in Hl.
    rewrite (matrix_multiply_rect m k p q B C) by assumption.
    rewrite nth_map_map by lia. unfold msum.
    rewrite Z.mul_mod_idemp_r by lia. f_equal.
    rewrite sumZ_mul_l. apply f_equal, map_ext. intros t. unfold f. ring.
Qed.

Lemma matrix_multiply_assoc_witness :
  matrix_multiply (matrix_multiply [[1; 2]] [[3]; [4]] 5) [[6; 1]] 5
  = matrix_multiply [[1; 2]] (matrix_multiply [[3]; [4]] [[6; 1]] 5) 5.
Proof.
  apply (matrix_multiply_assoc 1 2 1 2 5); try lia;
    (split; [reflexivity|repeat constructor]).
Defined.

(** [vector_matrix_multiply(v, M, q)] returns the empty vector when
    [v.size() != M.size()]; otherwise, for an [m x n] matrix [M]
    ([m >= 1]), it returns the [n] values [sum_i v[i] * M[i][j] mod q]. *)
Theorem vector_matrix_multiply_spec (m n : nat) (q : Z) (v : VectorType)
  (M : MatrixType) :
  0 < q -> (1 <= m)%nat -> rect m n M ->
  (length v <> m -> vector_matrix_multiply v M q = []) /\
  (length v = m ->
   length (vector_matrix_multiply v M q) = n /\
   forall j, (j < n)%nat ->
   nth j (vector_matrix_multiply v M q) 0
   = sumZ (map (fun i => nth i v 0 * nth j (nth i M []) 0) (seq 0 m)) mod q).
Proof.
  intros Hq Hm HM. split.
  - intros Hv. unfold vector_matrix_multiply. destruct HM as [Hl _]. rewrite Hl.
    destruct (Nat.eqb_spec (length v) m); [contradiction|reflexivity].
  - intros Hv. rewrite (vector_matrix_multiply_rect m n) by assumption.
    split; [rewrite length_map, length_seq; reflexivity|].
    intros j Hj. rewrite nth_map_seq by exact Hj. reflexivity.
Qed.

Lemma vector_matrix_multiply_spec_witness :
  vector_matrix_multiply [1] [[2; 3]; [4; 5]] 7 = [] /\
  nth 1 (vector_matrix_multiply [1; 1] [[2; 3]; [4; 5]] 7) 0 = 1.
Proof.
  destruct (vector_matrix_multiply_spec 2 2 7 [1] [[2; 3]; [4; 5]]) as [H1 _];
    [lia|lia|split; [reflexivity|repeat constructor]|].
  destruct (vector_matrix_multiply_spec 2 2 7 [1; 1] [[2; 3]; [4; 5]]) as [_ H2];
    [lia|lia|split; [reflexivity|repeat constructor]|].
  split; [apply H1; discriminate|].
  destruct H2 as [_ H2]; [reflexivity|]. rewrite H2 by lia. reflexivity.
Defined.

(** [vector_matrix_multiply] is linear in the matrix: for [m x n]
    matrices [A] and [B] ([m >= 1]) and [v] of size [m],
    [v^T (A + B) = v^T A + v^T B] entrywise modulo [q]. *)
Theorem vector_matrix_multiply_add (m n : nat) (q : Z) (v : VectorType)
  (A B : MatrixType) :
  0 < q -> (1 <= m)%nat -> rect m n A -> rect m n B -> length v = m ->
  vector_matrix_multiply v (matrix_add A B q) q
  = map (fun j => add_mod (nth j (vector_matrix_multiply v A q) 0)
                          (nth j (vector_matrix_multiply v B q) 0) q)
        (seq 0 n).
Proof.
  intros Hq Hm HA HB Hv.
  rewrite (matrix_add_rect m n q A B Hm HA).
  rewrite (vector_matrix_multiply_rect m n q v _) by (try apply rect_map; assumption).
  apply map_ext_in. intros j Hj. apply in_seq_lt in Hj.
  rewrite (vector_matrix_multiply_rect m n q v A), (vector_matrix_multiply_rect m n q v B)
    by assumption.
  rewrite !nth_map_seq by lia. unfold add_mod.
  rewrite <- Z.add_mod by lia. rewrite <- sumZ_add.
  apply sum_mod_congr; [lia|]. intros i Hi. apply in_seq_lt in Hi.
  rewrite nth_map_map by lia. rewrite Z.mul_mod_idemp_r by lia. f_equal. ring.
Qed.

Lemma vector_matrix_multiply_add_witness :
  vector_matrix_multiply [1; 2] (matrix_add [[1]; [2]] [[3]; [4]] 5) 5
  = map (fun j => add_mod (nth j (vector_matrix_multiply [1; 2] [[1]; [2]] 5) 0)
                          (nth j (vector_matrix_multiply [1; 2] [[3]; [4]] 5) 0) 5)
        (seq 0 1).
Proof.
  apply (vector_matrix_multiply_add 2 1 5); try lia; try reflexivity;
    (split; [reflexivity|repeat constructor]).
Defined.

(** A row vector times a matrix: for [v.size() == M.size() >= 1],
    [matrix_multiply({v}, M, q)] is the one-row matrix
    [{vector_matrix_multiply(v, M, q)}]. *)
Theorem matrix_multiply_row (q : Z) (v : VectorType) (M : MatrixType) :
  (1 <= length M)%nat -> length v = length M ->
  matrix_multiply [v] M q = [vector_matrix_multiply v M q].
Proof.
  intros HM Hv. unfold matrix_multiply, vector_matrix_multiply, mm_entry.
  cbn [length nth seq map]. rewrite Hv, Nat.eqb_refl. reflexivity.
Qed.

Lemma matrix_multiply_row_witness :
  matrix_multiply [[1; 2]] [[3; 4]; [5; 6]] 7 = [vector_matrix_multiply [1; 2] [[3; 4]; [5; 6]] 7].
Proof. apply matrix_multiply_row; cbn; lia. Defined.

(** [transpose] is an involution on [r x c] matrices with [r, c >= 1]. *)
Theorem transpose_involutive (r c : nat) (M : MatrixType) :
  (1 <= r)%nat -> (1 <= c)%nat -> rect r c M -> transpose (transpose M) = M.
Proof.
  intros Hr Hc HM.
  assert (T : transpose M
              = map (fun j => map (fun i => nth j (nth i M []) 0) (seq 0 r)) (seq 0 c)).
  { unfold transpose. rewrite (rect_nth r c M 0 HM) by lia.
    destruct HM as [Hl _]. rewrite Hl. reflexivity. }
  rewrite T. unfold transpose at 1.
  rewrite length_map, length_seq.
  rewrite nth_map_seq by lia. rewrite length_map, length_seq.
  etransitivity; [|exact (rect_eta r c M HM)].
  apply map_ext_in. intros i Hi. apply in_seq_lt in Hi.
  apply map_ext_in. intros j Hj. apply in_seq_lt in Hj.
  rewrite nth_map_map by lia. reflexivity.
Qed.

Lemma transpose_involutive_witness :
  transpose (transpose [[1; 2; 3]; [4; 5; 6]]) = [[1; 2; 3]; [4; 5; 6]].
Proof.
  apply (transpose_involutive 2 3); try lia.
  split; [reflexivity|repeat constructor].
Defined.

End MatrixExtras.

(** ** Gaussian elimination: range of the result, consistent systems *)

Module GaussMore.
Import Utils UtilsFacts Matrix GaussCorrect.

Lemma Forall_set_nth {A : Type} (P : A -> Prop) (i : nat) (x : A) (l : list A) :
  Forall P l -> P x -> Forall P (set_nth i x l).
Proof.
  revert i. induction l as [|h t IH]; intros i Hl Hx; [destruct i; constructor|].
  inversion Hl as [|? ? Hh Ht]; subst. destruct i as [|i]; simpl.
  - constructor; assumption.
  - constructor; [exact Hh|]. apply IH; assumption.
Qed.

Lemma back_subst_range (A : MatrixType) (d1 : nat) (q : Z) (n : nat)
  (res : VectorType) :
  0 < q -> Forall (fun v => 0 <= v < q) res ->
  Forall (fun v => 0 <= v < q) (back_subst A d1 q n res).
Proof.
  intros Hq. revert res. induction n as [|n IH]; intros res Hres; simpl; [exact Hres|].
  apply IH. unfold back_step. destruct (find_leading _ _ _); [|exact Hres].
  destruct (_ =? 0); [exact Hres|]. apply Forall_set_nth; [exact Hres|].
  unfold mul_mod. apply Z.mod_pos_bound. exact Hq.
Qed.

Lemma fst_elim_op (piv : VectorType) (col : nat) (q : Z) (tr : trow) :
  fst (elim_op piv col q tr) = fst tr.
Proof. destruct tr as [t r]. unfold elim_op. destruct (_ =? 0); reflexivity. Qed.

Lemma rdot_zero (d1 : nat) (r e : VectorType) :
  (forall j, (j < d1)%nat -> nth j r 0 = 0) -> rdot d1 r e = 0.
Proof.
  intros H. unfold rdot. apply sumZ_zero. intros j Hj. apply in_seq_lt in Hj.
  rewrite H by lia. ring.
Qed.

Section ForwardAll.
Variables (q : Z) (m d1 : nat) (O : nat -> VectorType) (x : VectorType).
Hypothesis Hprime : Z.prime q.
Hypothesis Hq64 : q < 2 ^ 64.

(** [x] satisfies every row, and every original equation is carried by
    some row. *)
Definition allsat (A : list trow) : Prop :=
  forall k, (k < m)%nat -> sat q d1 x (row_at A k).
Definition tagsurj (A : list trow) : Prop :=
  forall i, (i < m)%nat -> exists k, (k < m)%nat /\ tag_at A k = i.

Lemma allsat_step (A : list trow) (pr col : nat) :
  finv q m d1 O A pr col -> (pr < m)%nat -> (col < d1)%nat ->
  allsat A -> allsat (fst (forward_step A m col pr q)).
Proof.
  intros I Hpr Hcol HA.
  destruct I as [Hlen Hrows Hrange Htags [Hpc Hpm] Hzero Hech Hsat].
  destruct (find_pivot A col pr (m - pr)) as [b|] eqn:Hfp.
  2: { unfold forward_step. rewrite Hfp. exact HA. }
  destruct (find_pivot_some _ _ _ _ _ Hfp) as [Hb Hbnz].
  destruct (forward_step_some_rows A m col pr b q Hfp Hlen Hpr)
    as (_ & _ & Rlt & Req & Rgt).
  set (P := npiv A b col q) in *.
  destruct (normalize_facts q d1 Hprime Hq64 (row_at A b) col (Hrows b ltac:(lia))
      Hcol (fun j Hj => Hzero b j ltac:(lia) Hj)
      (fun j Hj => Hrange b j ltac:(lia) Hj) Hbnz)
    as (HPl & HP0 & HP1 & _ & HPs).
  fold P in HPl, HP0, HP1, HPs.
  assert (HxP : sat q d1 x P) by (apply HPs, HA; lia).
  intros k Hk. unfold row_at. destruct (lt_eq_lt_dec k pr) as [[Hlt| ->]|Hgt].
  - rewrite Rlt by exact Hlt. apply HA. lia.
  - rewrite Req. exact HxP.
  - rewrite Rgt by lia.
    set (k0 := if Nat.eqb k b then pr else k).
    assert (Hk0 : (pr <= k0 < m)%nat) by (unfold k0; destruct (Nat.eqb_spec k b); lia).
    rewrite (surjective_pairing (nth k0 A dflt)).
    destruct (elim_op_facts q d1 Hprime P col (tag_at A k0) (row_at A k0) Hcol
      HPl HP0 HP1 (Hrows k0 ltac:(lia)) (fun j Hj => Hzero k0 j ltac:(lia) Hj)
      (fun j Hj => Hrange k0 j ltac:(lia) Hj)) as (_ & _ & _ & _ & He).
    apply (He x HxP). apply HA. lia.
Qed.

Lemma tagsurj_step (A : list trow) (pr col : nat) :
  finv q m d1 O A pr col -> (pr < m)%nat ->
  tagsurj A -> tagsurj (fst (forward_step A m col pr q)).
Proof.
  intros I Hpr HT. destruct I as [Hlen _ _ _ _ _ _ _].
  destruct (find_pivot A col pr (m - pr)) as [b|] eqn:Hfp.
  2: { unfold forward_step. rewrite Hfp. exact HT. }
  destruct (find_pivot_some _ _ _ _ _ Hfp) as [Hb _].
  destruct (forward_step_some_rows A m col pr b q Hfp Hlen Hpr)
    as (_ & _ & Rlt & Req & Rgt).
  intros i Hi. destruct (HT i Hi) as (k & Hk & <-). unfold tag_at.
  destruct (Nat.eqb_spec k b) as [->|Hkb].
  - exists pr. split; [lia|]. rewrite Req. reflexivity.
  - destruct (Nat.eqb_spec k pr) as [->|Hkp].
    + exists b. split; [lia|]. rewrite Rgt by lia.
      rewrite fst_elim_op, Nat.eqb_refl. reflexivity.
    + exists k. split; [exact Hk|]. destruct (Nat.ltb_spec k pr).
      * rewrite Rlt by assumption. reflexivity.
      * rewrite Rgt by lia. rewrite fst_elim_op.
        destruct (Nat.eqb_spec k b); [contradiction|reflexivity].
Qed.

(** The [col] loop ends with every row having a pivot, or with all
    columns processed. *)
Lemma forward_all (fuel : nat) :
  forall A col pr, finv q m d1 O A pr col -> allsat A -> tagsurj A ->
  (col + fuel = d1)%nat ->
  exists c, (c <= d1)%nat /\
    finv q m d1 O (fst (forward A m col pr fuel q)) (snd (forward A m col pr fuel q)) c /\
    allsat (fst (forward A m col pr fuel q)) /\
    tagsurj (fst (forward A m col pr fuel q)) /\
    (snd (forward A m col pr fuel q) = m \/ c = d1).
Proof.
  induction fuel as [|f IH]; intros A col pr I HA HT Hc; simpl.
  - exists col. split; [lia|]. split; [exact I|]. split; [exact HA|].
    split; [exact HT|]. right. lia.
  - destruct (Nat.ltb_spec pr m) as [Hlt|Hge].
    + pose proof (finv_step q m d1 O Hprime Hq64 A pr col I Hlt ltac:(lia)) as I'.
      pose proof (allsat_step A pr col I Hlt ltac:(lia) HA) as HA'.
      pose proof (tagsurj_step A pr col I Hlt HT) as HT'.
      destruct (forward_step A m col pr q) as [A' pr'] eqn:Hs.
      apply (IH A' (S col) pr'); [exact I'|exact HA'|exact HT'|lia].
    + pose proof I as I0. destruct I0 as [_ _ _ _ [_ Hpm] _ _ _].
      exists col. split; [lia|]. split; [exact I|]. split; [exact HA|].
      split; [exact HT|]. left. cbn [snd]. lia.
Qed.

End ForwardAll.

End GaussMore.

Section GaussExtras.
Import Utils Matrix GaussCorrect GaussMore.

(** Every entry of the vector returned by [gaussian_elimination M y q]
    lies in [[0, q)], for every modulus [q > 0] and every input: the
    result starts as zeros and is only written with [mul_mod] values. *)
Theorem gaussian_elimination_range (M : MatrixType) (y : VectorType) (q : Z) :
  0 < q -> Forall (fun v => 0 <= v < q) (gaussian_elimination M y q).
Proof.
  intros Hq. unfold gaussian_elimination. destruct M as [|r0 rest]; [constructor|].
  destruct (forward _ _ _ _ _ _) as [A P].
  apply back_subst_range; [exact Hq|].
  apply Forall_forall. intros v Hv. apply repeat_spec in Hv. lia.
Qed.

Lemma gaussian_elimination_range_witness :
  Forall (fun v => 0 <= v < 7) (gaussian_elimination [[3; 5]; [1; 2]] [4; 6] 7).
Proof. apply gaussian_elimination_range. lia. Defined.

(** Consistent systems are solved: for a prime [q < 2^64] and
    coefficients in [[0, q)], if some vector [x] with one entry per
    column satisfies every equation modulo [q], then the vector returned
    by [gaussian_elimination M y q] satisfies every equation modulo [q]
    (rows left all-zero by the elimination have a zero right-hand side). *)
Theorem gaussian_elimination_consistent (M : MatrixType) (y x : VectorType) (q : Z) :
  Z.prime q -> q < 2 ^ 64 -> Forall (Forall (fun a => 0 <= a < q)) M ->
  length x = length (nth 0 M []) ->
  (forall i, (i < length M)%nat -> (row_dot (nth i M []) x - nth i y 0) mod q = 0) ->
  forall i, (i < length M)%nat ->
  (row_dot (nth i M []) (gaussian_elimination M y q) - nth i y 0) mod q = 0.
Proof.
  intros Hp H64 HM Hx Hsol i Hi. pose proof (q_ge_2 q Hp) as Hq2.
  unfold gaussian_elimination.
  destruct M as [|r0 rest]; [simpl in Hi; lia|].
  set (M := r0 :: rest) in *.
  set (m := length M) in *. set (d1 := length r0) in *.
  set (O := row_at (augment M y m d1)).
  assert (Hrow0 : forall k, (k < m)%nat -> row_at (augment M y m d1) k = O k)
    by reflexivity.
  assert (Htag0 : forall k, (k < m)%nat -> tag_at (augment M y m d1) k = k)
    by (intros k Hk; unfold tag_at; rewrite nth_augment by exact Hk; reflexivity).
  assert (HA0 : allsat q m d1 x (augment M y m d1)).
  { intros k Hk. apply sat_augment; [exact Hk|exact Hx|].
    apply Z.mod_divide; [lia|]. apply Hsol. exact Hk. }
  assert (HT0 : tagsurj m (augment M y m d1))
    by (intros k Hk; exists k; split; [exact Hk|apply Htag0, Hk]).
  pose proof (forward_all q m d1 O x Hp H64 d1 (augment M y m d1) 0 0
                (finv_init M y q m d1 Hq2 HM) HA0 HT0 eq_refl)
    as (c & Hc & I & HA & HT & Hend).
  revert I HA HT Hend.
  destruct (forward (augment M y m d1) m 0 0 d1 q) as [A P] eqn:Hf.
  cbn [fst snd]. intros I HA HT Hend.
  destruct I as [Hlen Hrows Hrange Htags [Hpc Hpm] Hzero Hech Hsat].
  replace (Nat.min P d1) with P by lia.
  set (e := back_subst (map snd A) d1 q P (repeat 0 d1)).
  assert (Hg : good q d1 (map snd A) P 0 e).
  { apply back_subst_good; [exact Hp | exact H64 | | lia |].
    - intros k Hk. destruct (Hech k Hk) as (c' & Hc' & H1 & H0 & Hbel).
      exists c'. rewrite !nth_map_snd. split; [lia|].
      split; [exact H1|]. split; [exact H0|].
      intros k' Hk'. rewrite nth_map_snd. apply Hbel; lia.
    - split; [apply repeat_length|]. intros k Hk. lia. }
  destruct Hg as [He Hgood].
  assert (Hpiv : forall k, (k < P)%nat -> sat q d1 e (row_at A k))
    by (intros k Hk; rewrite <- nth_map_snd; apply Hgood; lia).
  assert (Hall : forall k, (k < m)%nat -> sat q d1 e (row_at A k)).
  { intros k Hk. destruct (Nat.ltb_spec k P) as [HkP|HkP]; [apply Hpiv, HkP|].
    destruct Hend as [Hend|Hend]; [lia|subst c].
    assert (Hz : forall j, (j < d1)%nat -> nth j (row_at A k) 0 = 0)
      by (intros j Hj; apply (Hzero k j); lia).
    specialize (HA k Hk). unfold sat, resid in *.
    rewrite (rdot_zero d1 (row_at A k) e Hz).
    rewrite (rdot_zero d1 (row_at A k) x Hz) in HA. exact HA. }
  destruct (HT i Hi) as (k & Hk & Htk).
  assert (Hs : sat q d1 e (O (tag_at A k)))
    by (apply (Hsat e Hpiv k Hk); apply Hall, Hk).
  rewrite Htk in Hs. unfold O in Hs.
  apply sat_augment in Hs; [|exact Hi|exact He].
  apply Z.mod_divide; [lia|exact Hs].
Qed.

(** The system [x0 + x1 = 1], [2 x0 + 2 x1 = 2] over [Z_3] has the
    solution [[1; 0]]; its second row becomes all-zero and gets no
    pivot, and the result still satisfies both equations. *)
Lemma gaussian_elimination_consistent_witness :
  pivoted_rows [[1; 1]; [2; 2]] [1; 2] 3 = [0%nat] /\
  (row_dot (nth 1 [[1; 1]; [2; 2]] []) (gaussian_elimination [[1; 1]; [2; 2]] [1; 2] 3)
     - nth 1 [1; 2] 0) mod 3 = 0.
Proof.
  split; [vm_compute; reflexivity|].
  apply (gaussian_elimination_consistent [[1; 1]; [2; 2]] [1; 2] [1; 0] 3 Z.prime_3).
  - lia.
  - repeat constructor; lia.
  - reflexivity.
  - intros [|[|i]] Hi; [vm_compute; reflexivity|vm_compute; reflexivity|simpl in Hi; lia].
  - simpl. lia.
Defined.

End GaussExtras.
